(** * Quicklime: a bare bones event dispatcher

    Shallow embedding of [src/index.ts] (class [Quicklime]) together with
    the part of the JavaScript run time its behaviour depends on:

    - the ordered [Set] holding the callbacks and its live iterator
      (ECMAScript keeps the entries of a set in a list, [delete] and
      [clear] overwrite entries with an empty marker, [add] appends, and
      an iterator is an index into that list which skips empty entries);
    - the local variable [propagationStopped] of every activation of
      [dispatch], captured by the closure [stopPropagation];
    - promises: the one made by [next], and the ones of callbacks that
      suspend ([await]), whose continuations run in a later job;
    - the rejection of a promise that has no handler, which is all the
      class does with an error of a callback (it has no [catch] and logs
      nothing); what the host then does with such a promise is not
      modelled.

    Callbacks are user code.  A user function is known by its identity and
    its body, a command tree over the operations a callback can perform on
    the dispatcher and on the event it receives. *)

From stdpp Require Import base decidable option list sorting gmap.

(** ** Callback handles

    A [Set] compares functions by identity.  A user function is identified
    by a number; the arrow function [wrapper] made by a call of [once] is
    identified by the number of that call (every call makes a new closure)
    and remembers the callback it wraps; the arrow function registered by
    [next] is identified by the promise it resolves. *)

Inductive callback : Type :=
  | User (f : nat)
  | OnceWrapper (n : nat) (inner : callback)
  | NextListener (p : nat).

#[global] Instance callback_eq_dec : EqDecision callback.
Proof. solve_decision. Defined.

Section Quicklime.

Context {T E : Type}.

(** [QuicklimeEvent<Type>]: [last] is [Type | null]; [stopPropagation] is
    a closure over the variable [propagationStopped] of one activation of
    [dispatch], represented by the number of that activation. *)

Record QuicklimeEvent : Type := {
  data : T;
  event_last : option T;
  stopPropagation : nat
}.

(** Bodies of user callbacks.  [Await k] suspends: the call returns a
    pending promise and [k] runs in a later job.  [Throw] before any
    [Await] is a synchronous throw; after one it rejects the promise.
    A body may depend on the event it receives.  The language has no
    command for an [async] function that throws before its first
    [await] (it returns an already rejected promise), nor for a callback
    that calls [dispatch] or [next]. *)

Inductive cmd : Type :=
  | Return
  | Throw (e : E)
  | StopPropagation (k : cmd)
  | On (c : callback) (k : cmd)
  | Once (c : callback) (k : cmd)
  | Off (c : callback) (k : cmd)
  | Clear (k : cmd)
  | Await (k : cmd).

(** Ghost observations, recorded only to state properties. *)

Inductive observation : Type :=
  | Scheduled (i : nat) (c : callback) (ev : QuicklimeEvent)
  | Called (c : callback) (ev : QuicklimeEvent) (seen_last : option T).

(** The dispatcher ([callbacks], [this_last]) and the run time around it. *)

Record state : Type := {
  callbacks : list (option callback);
  this_last : option T;
  closures : nat;
  dispatches : nat;
  propagationStopped : gset nat;
  promises : list (option QuicklimeEvent);
  suspended : list (QuicklimeEvent * cmd);
  unhandled : list E;
  trace : list observation
}.

(** [new Quicklime(last)], with [last] defaulting to [null]. *)

Definition new (last : option T) : state :=
  {| callbacks := []; this_last := last; closures := 0; dispatches := 0;
     propagationStopped := ∅; promises := []; suspended := [];
     unhandled := []; trace := [] |}.

Definition set_callbacks (l : list (option callback)) (st : state) : state :=
  {| callbacks := l; this_last := this_last st; closures := closures st;
     dispatches := dispatches st;
     propagationStopped := propagationStopped st; promises := promises st;
     suspended := suspended st; unhandled := unhandled st;
     trace := trace st |}.

Definition set_last (v : option T) (st : state) : state :=
  {| callbacks := callbacks st; this_last := v; closures := closures st;
     dispatches := dispatches st;
     propagationStopped := propagationStopped st; promises := promises st;
     suspended := suspended st; unhandled := unhandled st;
     trace := trace st |}.

Definition fresh_closure (st : state) : state :=
  {| callbacks := callbacks st; this_last := this_last st;
     closures := S (closures st); dispatches := dispatches st;
     propagationStopped := propagationStopped st; promises := promises st;
     suspended := suspended st; unhandled := unhandled st;
     trace := trace st |}.

(** A new activation of [dispatch]: [let propagationStopped = false]. *)

Definition fresh_dispatch (st : state) : state :=
  {| callbacks := callbacks st; this_last := this_last st;
     closures := closures st; dispatches := S (dispatches st);
     propagationStopped := propagationStopped st ∖ {[dispatches st]};
     promises := promises st;
     suspended := suspended st; unhandled := unhandled st;
     trace := trace st |}.

(** [propagationStopped = true] in activation [d]. *)

Definition stop (d : nat) (st : state) : state :=
  {| callbacks := callbacks st; this_last := this_last st;
     closures := closures st; dispatches := dispatches st;
     propagationStopped := {[d]} ∪ propagationStopped st;
     promises := promises st; suspended := suspended st;
     unhandled := unhandled st; trace := trace st |}.

Definition stopped (d : nat) (st : state) : bool :=
  bool_decide (d ∈ propagationStopped st).

Definition set_promises (l : list (option QuicklimeEvent)) (st : state)
  : state :=
  {| callbacks := callbacks st; this_last := this_last st;
     closures := closures st; dispatches := dispatches st;
     propagationStopped := propagationStopped st; promises := l;
     suspended := suspended st; unhandled := unhandled st;
     trace := trace st |}.

Definition set_suspended (l : list (QuicklimeEvent * cmd)) (st : state)
  : state :=
  {| callbacks := callbacks st; this_last := this_last st;
     closures := closures st; dispatches := dispatches st;
     propagationStopped := propagationStopped st; promises := promises st;
     suspended := l; unhandled := unhandled st; trace := trace st |}.

(** Not code of the class, but of the run time: a promise that has no
    handler is rejected with [e].  ECMAScript tells the host at that
    moment (HostPromiseRejectionTracker); [unhandled] lists the reasons
    of these rejections, which are the thrown values themselves.  When
    and how the host reports them (a message on the console, the end of
    the process) is outside the model. *)

Definition report (e : E) (st : state) : state :=
  {| callbacks := callbacks st; this_last := this_last st;
     closures := closures st; dispatches := dispatches st;
     propagationStopped := propagationStopped st; promises := promises st;
     suspended := suspended st; unhandled := unhandled st ++ [e];
     trace := trace st |}.

Definition log (o : observation) (st : state) : state :=
  {| callbacks := callbacks st; this_last := this_last st;
     closures := closures st; dispatches := dispatches st;
     propagationStopped := propagationStopped st; promises := promises st;
     suspended := suspended st; unhandled := unhandled st;
     trace := trace st ++ [o] |}.

(** ** The [Set] of callbacks *)

Definition set_has (c : callback) (l : list (option callback)) : bool :=
  bool_decide (Some c ∈ l).

Definition set_add (c : callback) (l : list (option callback))
  : list (option callback) :=
  if set_has c l then l else l ++ [Some c].

Definition set_delete (c : callback) (l : list (option callback))
  : list (option callback) :=
  (λ e, if decide (e = Some c) then None else e) <$> l.

Definition set_clear (l : list (option callback)) : list (option callback) :=
  (λ _, None) <$> l.

(** The entries seen by [forEach] or a fresh iterator: the registry. *)

Definition registry (st : state) : list callback := omap id (callbacks st).

(** ** Registry operations of the class *)

Definition on (c : callback) (st : state) : state :=
  set_callbacks (set_add c (callbacks st)) st.

Definition off (c : callback) (st : state) : state :=
  set_callbacks (set_delete c (callbacks st)) st.

Definition clear (st : state) : state :=
  set_callbacks (set_clear (callbacks st)) st.

Definition once (c : callback) (st : state) : state :=
  on (OnceWrapper (closures st) c) (fresh_closure st).

(** [next]: the executor of the promise runs at once and registers a
    listener that resolves it.  The result is the promise. *)

Definition next (st : state) : nat * state :=
  let p := length (promises st) in
  (p, on (NextListener p) (set_promises (promises st ++ [None]) st)).

(** [resolve(event)]: only a pending promise changes. *)

Definition resolve (p : nat) (ev : QuicklimeEvent) (st : state) : state :=
  match promises st !! p with
  | Some None => set_promises (<[p := Some ev]> (promises st)) st
  | _ => st
  end.

(** ** Sample user functions

    Concrete inputs for the statements below.  [sample e is_special]:
    function 0 returns; 1 throws [e]; 2 stops the propagation; 3 suspends
    and stops the propagation when resumed; 4 removes function 0; 5 stops
    the propagation on special data only; 6 suspends and then returns;
    7 throws [e] except on special data; 8 suspends and throws [e] when
    resumed. *)

Definition sample (e : E) (is_special : T → bool) (f : nat)
    (ev : QuicklimeEvent) : cmd :=
  match f with
  | 1 => Throw e
  | 2 => StopPropagation Return
  | 3 => Await (StopPropagation Return)
  | 4 => Off (User 0) Return
  | 5 => if is_special (data ev) then StopPropagation Return else Return
  | 6 => Await Return
  | 7 => if is_special (data ev) then Return else Throw e
  | 8 => Await (Throw e)
  | _ => Return
  end.

(** More sample user functions, which edit the registry: function 0
    clears it; 1 removes itself and registers itself again; 2 registers
    function 3; the others return. *)

Definition sample_edits (f : nat) (ev : QuicklimeEvent) : cmd :=
  match f with
  | 0 => Clear Return
  | 1 => Off (User 1) (On (User 1) Return)
  | 2 => On (User 3) Return
  | _ => Return
  end.

(** ** Running callbacks *)

Variable body : nat → QuicklimeEvent → cmd.

Inductive completion : Type :=
  | Normal
  | Abrupt (e : E).

(** The part of a body that runs before control returns to the caller. *)

Fixpoint exec (ev : QuicklimeEvent) (b : cmd) (st : state)
  : state * completion :=
  match b with
  | Return => (st, Normal)
  | Throw e => (st, Abrupt e)
  | StopPropagation k => exec ev k (stop (stopPropagation ev) st)
  | On c k => exec ev k (on c st)
  | Once c k => exec ev k (once c st)
  | Off c k => exec ev k (off c st)
  | Clear k => exec ev k (clear st)
  | Await k => (set_suspended (suspended st ++ [(ev, k)]) st, Normal)
  end.

(** The call [callback(event)]. *)

Fixpoint call (c : callback) (ev : QuicklimeEvent) (st : state)
  : state * completion :=
  let st := log (Called c ev (this_last st)) st in
  match c with
  | User f => exec ev (body f ev) st
  | OnceWrapper n inner =>
      match call inner ev st with
      | (st1, Normal) => (off (OnceWrapper n inner) st1, Normal)
      | (st1, Abrupt e) => (st1, Abrupt e)
      end
  | NextListener p => (resolve p ev st, Normal)
  end.

(** [(async () => callback(event))()]: the call runs at once; a throw
    rejects the promise of the arrow function, which nobody holds. *)

Definition async_call (c : callback) (ev : QuicklimeEvent) (st : state)
  : state :=
  match call c ev st with
  | (st1, Normal) => st1
  | (st1, Abrupt e) => report e st1
  end.

(** A later job resumes the [i]-th suspended continuation.  A throw
    rejects the promise of the suspended call; no handler was attached. *)

Definition resume (i : nat) (st : state) : state :=
  match suspended st !! i with
  | None => st
  | Some (ev, k) =>
      match exec ev k (set_suspended (delete i (suspended st)) st) with
      | (st1, Normal) => st1
      | (st1, Abrupt e) => report e st1
      end
  end.

(** ** dispatch *)

Inductive outcome : Type :=
  | Returned (st : state)
  | OutOfFuel (st : state).

Definition final (o : outcome) : state :=
  match o with Returned st | OutOfFuel st => st end.

(** [for (const callback of this.callbacks)], from iterator index [i].
    The set is read at every step, so entries appended during the
    iteration are visited too; a handle that removes and registers itself
    again keeps the loop going, hence the fuel. *)

Fixpoint dispatch_loop (fuel : nat) (ev : QuicklimeEvent) (i : nat)
    (st : state) : outcome :=
  match fuel with
  | 0 => OutOfFuel st
  | S fuel' =>
      match callbacks st !! i with
      | None => Returned st
      | Some None => dispatch_loop fuel' ev (S i) st
      | Some (Some c) =>
          let st1 := async_call c ev (log (Scheduled i c ev) st) in
          if stopped (stopPropagation ev) st1 then Returned st1
          else dispatch_loop fuel' ev (S i) st1
      end
  end.

Definition dispatch_event (x : T) (st : state) : QuicklimeEvent :=
  {| data := x; event_last := this_last st;
     stopPropagation := dispatches st |}.

Definition dispatch (fuel : nat) (x : T) (st : state) : outcome :=
  dispatch_loop fuel (dispatch_event x st) 0
    (fresh_dispatch (set_last (Some x) st)).


(** ** Client programs

    A client drives a dispatcher through its methods; between two calls
    the scheduler may resume suspended continuations. *)

Inductive action : Type :=
  | DoOn (c : callback)
  | DoOnce (c : callback)
  | DoOff (c : callback)
  | DoClear
  | DoNext
  | DoDispatch (fuel : nat) (x : T)
  | DoResume (i : nat).

Definition step (st : state) (a : action) : state :=
  match a with
  | DoOn c => on c st
  | DoOnce c => once c st
  | DoOff c => off c st
  | DoClear => clear st
  | DoNext => (next st).2
  | DoDispatch fuel x => final (dispatch fuel x st)
  | DoResume i => resume i st
  end.

Definition run (acts : list action) (st : state) : state :=
  foldl step st acts.

(** The value of the latest [dispatch] of a client program, if any. *)

Definition last_dispatched (init : option T) (acts : list action)
  : option T :=
  foldl (λ v a, match a with DoDispatch _ x => Some x | _ => v end)
    init acts.

(** ** What a callback does before control returns to its caller *)

(** The value thrown synchronously, if any. *)

Fixpoint thrown (b : cmd) : option E :=
  match b with
  | Throw e => Some e
  | Return | Await _ => None
  | StopPropagation k | On _ k | Once _ k | Off _ k | Clear k => thrown k
  end.

Fixpoint thrown_by (c : callback) (ev : QuicklimeEvent) : option E :=
  match c with
  | User f => thrown (body f ev)
  | OnceWrapper _ inner => thrown_by inner ev
  | NextListener _ => None
  end.

(** Whether [event.stopPropagation()] is called synchronously. *)

Fixpoint calls_stop (b : cmd) : bool :=
  match b with
  | StopPropagation _ => true
  | Return | Throw _ | Await _ => false
  | On _ k | Once _ k | Off _ k | Clear k => calls_stop k
  end.

Fixpoint stops_sync (c : callback) (ev : QuicklimeEvent) : bool :=
  match c with
  | User f => calls_stop (body f ev)
  | OnceWrapper _ inner => stops_sync inner ev
  | NextListener _ => false
  end.

(** Whether the registration of [c] can happen synchronously: by
    [on(c)], or by [once(h)] when [c] is a wrapper of [h]. *)



(** A body that neither stops propagation nor edits the registry before
    its first suspension: it returns, throws or suspends at once (what it
    does after suspending is not restricted). *)

Definition quiet (b : cmd) : bool :=
  match b with
  | Return | Throw _ | Await _ => true
  | _ => false
  end.

Definition plain (c : callback) (ev : QuicklimeEvent) : bool :=
  match c with
  | User f => quiet (body f ev)
  | NextListener _ => true
  | OnceWrapper _ _ => false
  end.

(** A registered handle is inert when it is a quiet user function, a
    listener of [next], or the [once] wrapper of one of these. *)

Definition inert (c : callback) (ev : QuicklimeEvent) : bool :=
  match c with
  | OnceWrapper _ inner => plain inner ev
  | _ => plain c ev
  end.

(** The calls issued by the loop of [dispatch], in order. *)

Definition scheduled (tr : list observation) : list (nat * callback) :=
  omap (λ o, match o with
             | Scheduled i c _ => Some (i, c)
             | Called _ _ _ => None
             end) tr.

(** The bodies entered, in order. *)

Definition called (tr : list observation) : list callback :=
  omap (λ o, match o with
             | Called c _ _ => Some c
             | Scheduled _ _ _ => None
             end) tr.

(** Live entries of a [Set] with their iterator positions, from [i]. *)

Fixpoint slots (i : nat) (l : list (option callback))
  : list (nat * callback) :=
  match l with
  | [] => []
  | None :: l' => slots (S i) l'
  | Some c :: l' => (i, c) :: slots (S i) l'
  end.

(** What a dispatch of inert handles leaves of the entries: a [once]
    wrapper whose callback returned has removed itself. *)

Definition sweep (ev : QuicklimeEvent) (l : list (option callback))
  : list (option callback) :=
  (λ e, match e with
        | Some (OnceWrapper n inner) =>
            match thrown_by inner ev with
            | Some _ => e
            | None => None
            end
        | _ => e
        end) <$> l.

(** An observation made with event [ev] while the dispatcher's [last]
    field held [v]. *)

Definition sees (ev : QuicklimeEvent) (v : option T) (o : observation)
  : Prop :=
  match o with
  | Scheduled _ _ ev' => ev' = ev
  | Called _ ev' v' => ev' = ev ∧ v' = v
  end.

(** The continuation a callback leaves suspended when its body suspends
    at once. *)

Definition awaits (b : cmd) : option cmd :=
  match b with
  | Await k => Some k
  | _ => None
  end.

Fixpoint parked (c : callback) (ev : QuicklimeEvent)
  : option (QuicklimeEvent * cmd) :=
  match c with
  | User f => (λ k, (ev, k)) <$> awaits (body f ev)
  | OnceWrapper _ inner => parked inner ev
  | NextListener _ => None
  end.

(** How the promises of [next] may change while callbacks run with the
    event [ev]: a pending promise may be fulfilled with [ev]; a settled
    one stays as it is. *)

Definition settles (ev : QuicklimeEvent)
    (l l' : list (option QuicklimeEvent)) : Prop :=
  ∀ q, l' !! q = l !! q ∨ (l !! q = Some None ∧ l' !! q = Some (Some ev)).

(** The observations made between two states. *)

Definition observed (st st' : state) : list observation :=
  drop (length (trace st)) (trace st').

(** The reports made between two states. *)

Definition reported (st st' : state) : list E :=
  drop (length (unhandled st)) (unhandled st').

(** Whether a body registers a handle, by [on] or [once], before control
    returns to its caller. *)

Fixpoint registering (b : cmd) : bool :=
  match b with
  | Return | Throw _ | Await _ => false
  | On _ _ | Once _ _ => true
  | StopPropagation k | Off _ k | Clear k => registering k
  end.

(** Whether [c'] is the callback wrapped by the [once] wrapper [c], or
    wrapped by the callback it wraps, and so on. *)

Fixpoint wrapped_in (c' c : callback) : bool :=
  match c with
  | OnceWrapper _ inner => bool_decide (c' = inner) || wrapped_in c' inner
  | _ => false
  end.

(** * Properties *)

(** ** The [Set] operations on the entries *)

Section SetData.

Implicit Types (c : callback) (l : list (option callback)).

Lemma live_elem c l : c ∈ omap id l ↔ Some c ∈ l.
Proof.
  rewrite list_elem_of_omap. split.
  - intros ([c'|] & Hin & Heq); simpl in Heq; congruence.
  - intros Hin. by exists (Some c).
Qed.

Lemma live_add c l :
  omap id (set_add c l)
  = if bool_decide (c ∈ omap id l) then omap id l else omap id l ++ [c].
Proof.
  unfold set_add, set_has.
  rewrite (bool_decide_ext _ _ (live_elem c l)).
  case_bool_decide; [done|]. by rewrite omap_app.
Qed.

Lemma live_delete c l :
  omap id (set_delete c l) = filter (λ c', c' ≠ c) (omap id l).
Proof.
  unfold set_delete.
  induction l as [|[c'|] l IH]; csimpl; [done| |done].
  case_decide as Heq; csimpl.
  - injection Heq as ->. rewrite filter_cons_False; [done|]. by intros [].
  - rewrite filter_cons_True; [|congruence]. by rewrite IH.
Qed.

Lemma live_clear l : omap id (set_clear l) = [].
Proof. induction l as [|e l IH]; [done|]. by csimpl. Qed.

Lemma live_slots i l : (slots i l).*2 = omap id l.
Proof.
  revert i. induction l as [|[c|] l IH]; intros i; csimpl; [done| |done].
  by rewrite IH.
Qed.

Lemma NoDup_live_add c l : NoDup (omap id l) → NoDup (omap id (set_add c l)).
Proof.
  intros Hnd. rewrite live_add. case_bool_decide as Hin; [done|].
  apply NoDup_app. split_and!; [done| |apply NoDup_singleton].
  intros c' Hc' ->%list_elem_of_singleton. done.
Qed.

Lemma NoDup_live_delete c l :
  NoDup (omap id l) → NoDup (omap id (set_delete c l)).
Proof. intros Hnd. rewrite live_delete. by apply NoDup_filter. Qed.

Lemma set_add_present c l : Some c ∈ l → set_add c l = l.
Proof. intros Hin. unfold set_add, set_has. by rewrite bool_decide_eq_true_2. Qed.

Lemma set_add_elem c l : Some c ∈ set_add c l.
Proof.
  unfold set_add, set_has. case_bool_decide; [done|].
  apply elem_of_app. right. apply list_elem_of_singleton. done.
Qed.

Lemma set_delete_absent c l : Some c ∉ l → set_delete c l = l.
Proof.
  intros Hnin. unfold set_delete.
  induction l as [|e l IH]; [done|]. csimpl.
  rewrite not_elem_of_cons in Hnin. destruct Hnin as [Hne Hnin].
  rewrite decide_False; [|congruence]. by rewrite IH.
Qed.

Lemma set_delete_elem c c' l : Some c' ∈ set_delete c l ↔ c' ≠ c ∧ Some c' ∈ l.
Proof.
  rewrite <-!live_elem, live_delete, list_elem_of_filter. done.
Qed.

Lemma length_set_delete c l : length (set_delete c l) = length l.
Proof. unfold set_delete. by rewrite length_fmap. Qed.

Lemma length_set_add c l : length l ≤ length (set_add c l).
Proof.
  unfold set_add. destruct (set_has c l); [done|].
  rewrite length_app. simpl. lia.
Qed.

End SetData.

(** ** Synchronous execution of a body *)

Section Exec.

Implicit Types (b k : cmd) (c : callback) (ev : QuicklimeEvent) (st : state).

Lemma exec_completion ev b st :
  (exec ev b st).2 = match thrown b with Some e => Abrupt e | None => Normal end.
Proof. revert st. induction b; intros st; simpl; auto. Qed.

(** A body touches neither [last], nor the promises of [next], nor the
    host's report, nor the observations. *)

Lemma exec_frame ev b st :
  let st1 := (exec ev b st).1 in
  this_last st1 = this_last st ∧ dispatches st1 = dispatches st ∧
  promises st1 = promises st ∧ unhandled st1 = unhandled st ∧
  trace st1 = trace st.
Proof.
  revert st. induction b; intros st; simpl; auto;
    match goal with IH : ∀ st, _ |- context [exec ev _ ?s] =>
      destruct (IH s) as (-> & -> & -> & -> & ->); auto end.
Qed.

Lemma exec_stopped_mono ev b st d :
  d ∈ propagationStopped st → d ∈ propagationStopped (exec ev b st).1.
Proof.
  revert st. induction b; intros st Hd; simpl; auto.
  apply IHb. simpl. set_solver.
Qed.

Lemma exec_calls_stop ev b st :
  calls_stop b = true →
  stopPropagation ev ∈ propagationStopped (exec ev b st).1.
Proof.
  revert st. induction b; intros st Hb; simpl in *; try done; auto.
  apply exec_stopped_mono. simpl. set_solver.
Qed.

Lemma exec_NoDup ev b st :
  NoDup (registry st) → NoDup (registry (exec ev b st).1).
Proof.
  unfold registry. revert st.
  induction b; intros st Hnd; simpl; auto; apply IHb; simpl.
  - by apply NoDup_live_add.
  - by apply NoDup_live_add.
  - by apply NoDup_live_delete.
  - rewrite live_clear. apply NoDup_nil_2.
Qed.

Lemma exec_quiet ev b st :
  quiet b = true →
  let st1 := (exec ev b st).1 in
  callbacks st1 = callbacks st ∧
  propagationStopped st1 = propagationStopped st ∧
  closures st1 = closures st ∧
  suspended st1 = suspended st ++ option_list ((λ k, (ev, k)) <$> awaits b).
Proof.
  destruct b; simpl; try done; intros _; rewrite ?app_nil_r; auto.
Qed.


End Exec.

(** ** The call of a callback *)

Section Call.

Implicit Types (b k : cmd) (c : callback) (ev : QuicklimeEvent) (st : state).

Lemma call_completion c ev st :
  (call c ev st).2
  = match thrown_by c ev with Some e => Abrupt e | None => Normal end.
Proof.
  revert st. induction c as [f|n inner IH|p]; intros st; simpl.
  - apply exec_completion.
  - specialize (IH (log (Called (OnceWrapper n inner) ev (this_last st)) st)).
    destruct (call inner ev _) as [st1 [|e]]; simpl in *;
      by destruct (thrown_by inner ev).
  - done.
Qed.

Lemma call_frame c ev st :
  let st1 := (call c ev st).1 in
  this_last st1 = this_last st ∧ dispatches st1 = dispatches st ∧
  unhandled st1 = unhandled st.
Proof.
  revert st. induction c as [f|n inner IH|p]; intros st; simpl.
  - destruct (exec_frame ev (body f ev)
      (log (Called (User f) ev (this_last st)) st)) as (-> & -> & _ & -> & _).
    done.
  - specialize (IH (log (Called (OnceWrapper n inner) ev (this_last st)) st)).
    destruct (call inner ev _) as [st1 [|e]]; simpl in *; done.
  - unfold resolve. simpl. by destruct (promises st !! p) as [[|]|].
Qed.

(** A call records the entry into the body and, for a [once] wrapper, the
    entry into the wrapped callback; the loop of [dispatch] is not
    involved. *)

Lemma call_trace c ev st :
  ∃ more, trace (call c ev st).1 = trace st ++ Called c ev (this_last st) :: more
    ∧ scheduled more = [] ∧ Forall (sees ev (this_last st)) more
    ∧ (∀ n inner, c = OnceWrapper n inner → inner ∈ called more).
Proof.
  revert st. induction c as [f|n inner IH|p]; intros st; simpl.
  - exists []. destruct (exec_frame ev (body f ev)
      (log (Called (User f) ev (this_last st)) st)) as (_ & _ & _ & _ & ->).
    simpl. split_and!; done.
  - destruct (IH (log (Called (OnceWrapper n inner) ev (this_last st)) st))
      as (more & Htr & Hs & Hf & _).
    exists (Called inner ev (this_last st) :: more).
    destruct (call inner ev _) as [st1 [|e]]; simpl in *;
      rewrite Htr, <-app_assoc; (split_and!; [done|done| |]).
    + by constructor.
    + intros ?? [= _ <-]. unfold called. csimpl. apply elem_of_cons. by left.
    + by constructor.
    + intros ?? [= _ <-]. unfold called. csimpl. apply elem_of_cons. by left.
  - exists []. unfold resolve. simpl.
    destruct (promises st !! p) as [[|]|]; simpl; split_and!; done.
Qed.

Lemma call_stopped_mono c ev st d :
  d ∈ propagationStopped st → d ∈ propagationStopped (call c ev st).1.
Proof.
  revert st. induction c as [f|n inner IH|p]; intros st Hd; simpl.
  - by apply exec_stopped_mono.
  - specialize (IH (log (Called (OnceWrapper n inner) ev (this_last st)) st) Hd).
    destruct (call inner ev _) as [st1 [|e]]; simpl in *; done.
  - unfold resolve. simpl. by destruct (promises st !! p) as [[|]|].
Qed.

Lemma call_stops_sync c ev st :
  stops_sync c ev = true →
  stopPropagation ev ∈ propagationStopped (call c ev st).1.
Proof.
  revert st. induction c as [f|n inner IH|p]; intros st Hs; simpl in *.
  - by apply exec_calls_stop.
  - specialize (IH (log (Called (OnceWrapper n inner) ev (this_last st)) st) Hs).
    destruct (call inner ev _) as [st1 [|e]]; simpl in *; done.
  - done.
Qed.

Lemma call_NoDup c ev st :
  NoDup (registry st) → NoDup (registry (call c ev st).1).
Proof.
  revert st. induction c as [f|n inner IH|p]; intros st Hnd; simpl.
  - by apply exec_NoDup.
  - specialize (IH (log (Called (OnceWrapper n inner) ev (this_last st)) st) Hnd).
    destruct (call inner ev _) as [st1 [|e]]; simpl in *; [|done].
    by apply NoDup_live_delete.
  - unfold resolve. simpl. by destruct (promises st !! p) as [[|]|].
Qed.


Lemma call_plain c ev st :
  plain c ev = true →
  let st1 := (call c ev st).1 in
  callbacks st1 = callbacks st ∧
  propagationStopped st1 = propagationStopped st ∧
  closures st1 = closures st ∧
  suspended st1 = suspended st ++ option_list (parked c ev).
Proof.
  destruct c as [f|n inner|p]; simpl; [|done|].
  - intros Hq.
    exact (exec_quiet ev _ (log (Called (User f) ev (this_last st)) st) Hq).
  - intros _. unfold resolve. simpl. rewrite app_nil_r.
    by destruct (promises st !! p) as [[|]|].
Qed.

(** An inert handle leaves the entries alone, except that a [once]
    wrapper whose callback returned deletes itself. *)

Lemma call_inert c ev st :
  inert c ev = true →
  let st1 := (call c ev st).1 in
  callbacks st1
  = match c, thrown_by c ev with
    | OnceWrapper _ _, None => set_delete c (callbacks st)
    | _, _ => callbacks st
    end ∧
  propagationStopped st1 = propagationStopped st ∧
  closures st1 = closures st ∧
  suspended st1 = suspended st ++ option_list (parked c ev).
Proof.
  destruct c as [f|n inner|p]; intros Hi.
  - destruct (call_plain (User f) ev st Hi) as (? & ? & ? & ?).
    split_and!; [|done..]. simpl in *. by destruct (thrown (body f ev)).
  - simpl in Hi. cbn [call].
    pose proof (call_plain inner ev
      (log (Called (OnceWrapper n inner) ev (this_last st)) st) Hi) as Hp.
    pose proof (call_completion inner ev
      (log (Called (OnceWrapper n inner) ev (this_last st)) st)) as Hc.
    destruct (call inner ev _) as [st1 r]. simpl in Hp, Hc.
    cbn [thrown_by parked]. destruct Hp as (Hp1 & Hp2 & Hp3 & Hp4).
    destruct (thrown_by inner ev); subst r; simpl; rewrite ?Hp1; done.
  - by apply call_plain.
Qed.

Lemma wrapper_call_normal n h ev st :
  thrown_by h ev = None →
  call (OnceWrapper n h) ev st
  = (off (OnceWrapper n h)
       (call h ev (log (Called (OnceWrapper n h) ev (this_last st)) st)).1,
     Normal).
Proof.
  intros Hn. cbn [call].
  pose proof (call_completion h ev
    (log (Called (OnceWrapper n h) ev (this_last st)) st)) as Hc.
  rewrite Hn in Hc. destruct (call h ev _) as [st1 r]. simpl in *. by subst r.
Qed.

Lemma wrapper_call_abrupt n h ev st e :
  thrown_by h ev = Some e →
  call (OnceWrapper n h) ev st
  = ((call h ev (log (Called (OnceWrapper n h) ev (this_last st)) st)).1,
     Abrupt e).
Proof.
  intros Hn. cbn [call].
  pose proof (call_completion h ev
    (log (Called (OnceWrapper n h) ev (this_last st)) st)) as Hc.
  rewrite Hn in Hc. destruct (call h ev _) as [st1 r]. simpl in *. by subst r.
Qed.

End Call.

(** ** The loop of [dispatch] *)

Section Loop.

Implicit Types (b k : cmd) (c : callback) (ev : QuicklimeEvent) (st : state).

Lemma async_call_eq c ev st :
  async_call c ev st
  = match thrown_by c ev with
    | Some e => report e (call c ev st).1
    | None => (call c ev st).1
    end.
Proof.
  unfold async_call. pose proof (call_completion c ev st) as Hc.
  destruct (call c ev st) as [st1 r]. simpl in *.
  destruct (thrown_by c ev); by subst r.
Qed.

Lemma async_call_frame c ev st :
  let st1 := async_call c ev st in
  this_last st1 = this_last st ∧ dispatches st1 = dispatches st ∧
  callbacks st1 = callbacks (call c ev st).1 ∧
  propagationStopped st1 = propagationStopped (call c ev st).1 ∧
  closures st1 = closures (call c ev st).1 ∧
  promises st1 = promises (call c ev st).1 ∧
  suspended st1 = suspended (call c ev st).1 ∧
  trace st1 = trace (call c ev st).1 ∧
  unhandled st1 = unhandled st ++ option_list (thrown_by c ev).
Proof.
  simpl. rewrite async_call_eq.
  destruct (call_frame c ev st) as (Hl & Hd & Hu).
  destruct (thrown_by c ev); simpl; rewrite ?Hu, ?app_nil_r; done.
Qed.

Lemma loop_frame fuel ev i st :
  let st' := final (dispatch_loop fuel ev i st) in
  this_last st' = this_last st ∧ dispatches st' = dispatches st.
Proof.
  revert i st. induction fuel as [|fuel IH]; intros i st; simpl; [done|].
  destruct (callbacks st !! i) as [[c|]|]; [|by apply IH|done].
  destruct (async_call_frame c ev (log (Scheduled i c ev) st))
    as (Hl & Hd & _).
  destruct (stopped _ _); simpl; [done|].
  destruct (IH (S i) (async_call c ev (log (Scheduled i c ev) st)))
    as (-> & ->). done.
Qed.

(** Every observation of one run of the loop is made with the event of
    that run, and the run only appends observations and reports. *)

Lemma loop_trace fuel ev i st :
  ∃ obs, trace (final (dispatch_loop fuel ev i st)) = trace st ++ obs
    ∧ Forall (sees ev (this_last st)) obs.
Proof.
  revert i st. induction fuel as [|fuel IH]; intros i st; simpl.
  { exists []. by rewrite app_nil_r. }
  destruct (callbacks st !! i) as [[c|]|]; [|by apply IH|].
  2:{ exists []. by rewrite app_nil_r. }
  set (s0 := log (Scheduled i c ev) st).
  destruct (call_trace c ev s0) as (more & Htr & _ & Hf & _).
  destruct (async_call_frame c ev s0) as (Hl & _ & _ & _ & _ & _ & _ & Ht & _).
  destruct (stopped _ _); simpl.
  - exists (Scheduled i c ev :: Called c ev (this_last st) :: more).
    rewrite Ht, Htr. simpl. rewrite <-app_assoc. split; [done|].
    repeat constructor; done.
  - destruct (IH (S i) (async_call c ev s0)) as (obs & -> & Hobs).
    exists (Scheduled i c ev :: Called c ev (this_last st) :: more ++ obs).
    rewrite Ht, Htr. simpl. rewrite <-!app_assoc. split; [done|].
    rewrite Hl in Hobs. repeat constructor; try done.
    apply Forall_app. done.
Qed.

Lemma loop_unhandled fuel ev i st :
  ∃ es, unhandled (final (dispatch_loop fuel ev i st)) = unhandled st ++ es.
Proof.
  revert i st. induction fuel as [|fuel IH]; intros i st; simpl.
  { exists []. by rewrite app_nil_r. }
  destruct (callbacks st !! i) as [[c|]|]; [|by apply IH|].
  2:{ exists []. by rewrite app_nil_r. }
  set (s0 := log (Scheduled i c ev) st).
  destruct (async_call_frame c ev s0) as (_ & _ & _ & _ & _ & _ & _ & _ & Hu).
  destruct (stopped _ _); simpl.
  - eexists. exact Hu.
  - destruct (IH (S i) (async_call c ev s0)) as (es & ->).
    rewrite Hu. simpl. rewrite <-app_assoc. by eexists.
Qed.

Lemma async_call_NoDup c ev st :
  NoDup (registry st) → NoDup (registry (async_call c ev st)).
Proof.
  intros Hnd. unfold registry.
  destruct (async_call_frame c ev st) as (_ & _ & -> & _).
  by apply call_NoDup.
Qed.

Lemma loop_NoDup fuel ev i st :
  NoDup (registry st) → NoDup (registry (final (dispatch_loop fuel ev i st))).
Proof.
  revert i st. induction fuel as [|fuel IH]; intros i st Hnd; simpl; [done|].
  destruct (callbacks st !! i) as [[c|]|]; [|by apply IH|done].
  pose proof (async_call_NoDup c ev (log (Scheduled i c ev) st) Hnd).
  destruct (stopped _ _); simpl; [done|]. by apply IH.
Qed.

Lemma resume_frame i st :
  this_last (resume i st) = this_last st ∧
  dispatches (resume i st) = dispatches st ∧
  trace (resume i st) = trace st.
Proof.
  unfold resume. destruct (suspended st !! i) as [[ev k]|]; [|done].
  destruct (exec_frame ev k (set_suspended (delete i (suspended st)) st))
    as (Hl & Hd & _ & _ & Ht).
  destruct (exec ev k _) as [st1 [|e]]; simpl in *; done.
Qed.

Lemma resume_NoDup i st :
  NoDup (registry st) → NoDup (registry (resume i st)).
Proof.
  intros Hnd. unfold resume.
  destruct (suspended st !! i) as [[ev k]|]; [|done].
  pose proof (exec_NoDup ev k
    (set_suspended (delete i (suspended st)) st) Hnd) as H.
  destruct (exec ev k _) as [st1 [|e]]; simpl in *; done.
Qed.

Lemma step_NoDup a st : NoDup (registry st) → NoDup (registry (step st a)).
Proof.
  intros Hnd. destruct a as [c|c|c| | |fuel x|i]; simpl.
  - by apply NoDup_live_add.
  - by apply NoDup_live_add.
  - by apply NoDup_live_delete.
  - unfold registry. simpl. rewrite live_clear. apply NoDup_nil_2.
  - by apply NoDup_live_add.
  - by apply loop_NoDup.
  - by apply resume_NoDup.
Qed.

Lemma run_snoc acts a st : run (acts ++ [a]) st = step (run acts st) a.
Proof. unfold run. by rewrite foldl_app. Qed.

Lemma run_NoDup acts st :
  NoDup (registry st) → NoDup (registry (run acts st)).
Proof.
  intros Hnd. induction acts as [|a acts IH] using rev_ind; [done|].
  rewrite run_snoc. by apply step_NoDup.
Qed.

Lemma step_last a st :
  this_last (step st a)
  = match a with DoDispatch _ x => Some x | _ => this_last st end.
Proof.
  destruct a as [c|c|c| | |fuel x|i]; simpl; try done.
  - unfold dispatch. by destruct (loop_frame fuel (dispatch_event x st) 0
      (fresh_dispatch (set_last (Some x) st))) as [-> _].
  - apply resume_frame.
Qed.

End Loop.

(** ** The registry is a set in insertion order *)

Section Registry.

Implicit Types (c : callback) (st : state).

Lemma state_eta st : set_callbacks (callbacks st) st = st.
Proof. by destruct st. Qed.

Lemma on_present c st : c ∈ registry st → on c st = st.
Proof.
  intros Hin%live_elem. unfold on. rewrite set_add_present; [|done].
  apply state_eta.
Qed.

Lemma on_registered c st : c ∈ registry (on c st).
Proof. apply live_elem. simpl. apply set_add_elem. Qed.

Lemma off_unregistered c st : c ∉ registry (off c st).
Proof.
  unfold registry. simpl. rewrite live_delete, list_elem_of_filter. tauto.
Qed.

End Registry.

(** ** The last dispatched value *)

Section Last.

Lemma run_last acts st :
  this_last (run acts st) = last_dispatched (this_last st) acts.
Proof.
  induction acts as [|a acts IH] using rev_ind; [done|].
  rewrite run_snoc, step_last. unfold last_dispatched in *.
  rewrite foldl_app. simpl. by rewrite IH.
Qed.

(** C5.  [dispatch(x)] leaves [x] in [last], whatever the callbacks do
    and however far the iteration gets.  Every observation of that
    dispatch, in particular every entry into a callback, is made with the
    event [{data: x, last: previous}], where [previous] is the value of
    [last] before the call, and at a moment when the dispatcher's [last]
    already holds [x].  For a client program started on
    [new Quicklime(init)], [last] is the value of the most recent
    [dispatch], and [init] when there was none. *)

Theorem dispatch_sets_last_first fuel x st acts init :
  let st' := final (dispatch fuel x st) in
  this_last st' = Some x ∧
  (∃ obs, trace st' = trace st ++ obs ∧
     Forall (sees {| data := x; event_last := this_last st;
                     stopPropagation := dispatches st |} (Some x)) obs) ∧
  this_last (run acts (new init)) = last_dispatched init acts.
Proof.
  simpl. unfold dispatch. split_and!.
  - by destruct (loop_frame fuel (dispatch_event x st) 0
      (fresh_dispatch (set_last (Some x) st))) as [-> _].
  - apply (loop_trace fuel (dispatch_event x st) 0
      (fresh_dispatch (set_last (Some x) st))).
  - apply run_last.
Qed.

End Last.

(** ** What one run of the loop schedules and reports *)

Section Observations.

Implicit Types (c : callback) (ev : QuicklimeEvent) (st : state).

Lemma scheduled_app tr1 tr2 :
  scheduled (tr1 ++ tr2) = scheduled tr1 ++ scheduled tr2.
Proof. apply omap_app. Qed.

Lemma loop_observations fuel ev i st :
  ∃ obs, trace (final (dispatch_loop fuel ev i st)) = trace st ++ obs
    ∧ unhandled (final (dispatch_loop fuel ev i st))
      = unhandled st ++ omap (λ jc, thrown_by jc.2 ev) (scheduled obs)
    ∧ Forall (λ jc, i ≤ jc.1) (scheduled obs)
    ∧ (∀ j c, (j, c) ∈ scheduled obs → stops_sync c ev = true →
         Forall (λ jc, jc.1 ≤ j) (scheduled obs)).
Proof.
  revert i st. induction fuel as [|fuel IH]; intros i st; simpl.
  { exists []. rewrite !app_nil_r. split_and!; [done..|]. by intros ?? ?%elem_of_nil. }
  destruct (callbacks st !! i) as [[c|]|] eqn:Hi.
  3:{ exists []. rewrite !app_nil_r. split_and!; [done..|].
      by intros ?? ?%elem_of_nil. }
  2:{ destruct (IH (S i) st) as (obs & Htr & Hu & Hge & Hstop).
      exists obs. split_and!; [done..| |done].
      eapply Forall_impl; [exact Hge|]. simpl. lia. }
  set (s0 := log (Scheduled i c ev) st).
  destruct (call_trace c ev s0) as (more & Htr & Hs & _).
  destruct (async_call_frame c ev s0)
    as (_ & _ & _ & Hp & _ & _ & _ & Ht & Hu).
  destruct (stopped _ _) eqn:Hst; simpl.
  - exists (Scheduled i c ev :: Called c ev (this_last st) :: more).
    rewrite Ht, Htr, Hu. simpl. rewrite <-app_assoc.
    unfold scheduled at 1 2 3. csimpl. fold (scheduled more). rewrite Hs.
    split_and!; [done| |by repeat constructor|].
    + csimpl. by destruct (thrown_by c ev).
    + intros j c' [= -> ->]%list_elem_of_singleton _. by repeat constructor.
  - destruct (IH (S i) (async_call c ev s0)) as (obs & Htr' & Hu' & Hge & Hstop).
    exists (Scheduled i c ev :: Called c ev (this_last st) :: more ++ obs).
    rewrite Htr', Hu', Ht, Htr, Hu. simpl. rewrite <-!app_assoc.
    unfold scheduled at 1 2 3. csimpl. fold (scheduled (more ++ obs)).
    rewrite scheduled_app, Hs. simpl.
    split_and!; [done| | |].
    + csimpl. by destruct (thrown_by c ev).
    + constructor; [done|]. eapply Forall_impl; [exact Hge|]. simpl. lia.
    + intros j c' [[= -> ->]|Hin]%elem_of_cons Hsync.
      * apply (call_stops_sync _ _ s0) in Hsync.
        unfold stopped in Hst. rewrite Hp in Hst.
        by rewrite bool_decide_eq_true_2 in Hst.
      * constructor; [|by eapply Hstop].
        rewrite Forall_forall in Hge. specialize (Hge _ Hin). simpl in *. lia.
Qed.

Lemma observed_app st st' obs :
  trace st' = trace st ++ obs → observed st st' = obs.
Proof. intros H. unfold observed. rewrite H. apply drop_app_length. Qed.

Lemma reported_app st st' es :
  unhandled st' = unhandled st ++ es → reported st st' = es.
Proof. intros H. unfold reported. rewrite H. apply drop_app_length. Qed.

(** The loop issues its calls in increasing order of position. *)

Lemma loop_sorted fuel ev i st :
  StronglySorted (λ a b, a.1 < b.1)
    (scheduled (observed st (final (dispatch_loop fuel ev i st)))).
Proof.
  revert i st. induction fuel as [|fuel IH]; intros i st; simpl.
  { unfold observed. rewrite drop_all. constructor. }
  destruct (callbacks st !! i) as [[c|]|] eqn:Hi; [|by apply IH|].
  2:{ unfold observed. rewrite drop_all. constructor. }
  set (s0 := log (Scheduled i c ev) st).
  destruct (call_trace c ev s0) as (more & Htr & Hs & _).
  destruct (async_call_frame c ev s0)
    as (_ & _ & _ & _ & _ & _ & _ & Ht & _).
  assert (trace (async_call c ev s0)
          = trace st ++ Scheduled i c ev :: Called c ev (this_last st) :: more)
    as Ht1.
  { rewrite Ht, Htr. simpl. by rewrite <-app_assoc. }
  destruct (stopped _ _); simpl.
  - rewrite (observed_app _ _ _ Ht1).
    unfold scheduled. csimpl. fold (scheduled more). rewrite Hs.
    by repeat constructor.
  - specialize (IH (S i) (async_call c ev s0)).
    destruct (loop_observations fuel ev (S i) (async_call c ev s0))
      as (obs & Htr' & _ & Hge & _).
    rewrite (observed_app _ _ _ Htr') in IH.
    rewrite Ht1, <-app_assoc in Htr'. rewrite (observed_app _ _ _ Htr').
    unfold scheduled. csimpl. fold (scheduled (more ++ obs)).
    rewrite scheduled_app, Hs. simpl. constructor; [done|].
    eapply Forall_impl; [exact Hge|]. simpl. lia.
Qed.

End Observations.

(** ** Propagation, errors and removal during a dispatch *)

Section Dispatch.

Implicit Types (c : callback) (ev : QuicklimeEvent) (st : state).

Lemma dispatch_observations fuel x st :
  let ev := dispatch_event x st in
  let st' := final (dispatch fuel x st) in
  trace st' = trace st ++ observed st st'
  ∧ reported st st' = omap (λ jc, thrown_by jc.2 ev) (scheduled (observed st st'))
  ∧ (∀ j c, (j, c) ∈ scheduled (observed st st') → stops_sync c ev = true →
       Forall (λ jc, jc.1 ≤ j) (scheduled (observed st st'))).
Proof.
  simpl. unfold dispatch.
  destruct (loop_observations fuel (dispatch_event x st) 0
    (fresh_dispatch (set_last (Some x) st))) as (obs & Htr & Hu & _ & Hstop).
  simpl in Htr, Hu.
  rewrite (observed_app _ _ _ Htr), (reported_app _ _ _ Hu). done.
Qed.

(** C3.  In every dispatch, when the loop has issued the call of the
    handle [c] at iterator position [i] and [c] calls
    [event.stopPropagation()] before control returns to the loop (before
    any suspension), every call issued by the loop in that dispatch is at a
    position [j <= i]: no handle at a later position is scheduled. *)

Theorem sync_stop_prevents_later fuel x st i c :
  let st' := final (dispatch fuel x st) in
  (i, c) ∈ scheduled (observed st st') →
  stops_sync c (dispatch_event x st) = true →
  ∀ j c', (j, c') ∈ scheduled (observed st st') → j ≤ i.
Proof.
  simpl. intros Hin Hsync j c' Hj.
  destruct (dispatch_observations fuel x st) as (_ & _ & Hstop).
  specialize (Hstop i c Hin Hsync). rewrite Forall_forall in Hstop.
  exact (Hstop _ Hj).
Qed.


(** C8.  The loop reads the live set.  Take the iteration at any
    position [i], with the handle [c'] out of the registry (it was removed
    by [off], or it is a [once] wrapper that removed itself) and with no
    user function that registers [c'] again on this event: the rest of the
    iteration never issues a call of [c'], although a snapshot taken at
    the start of the dispatch would have contained it.  [off] takes the
    handle out of the registry, and so does the call of a [once] wrapper
    whose callback does not throw.  [off] touches nothing else: the
    observations of the calls already issued stay, and so do the
    continuations of the handles that suspended; the loop only ever
    appends observations. *)


End Dispatch.

(** ** Dispatching to inert handles *)

Section Inert.

Implicit Types (c : callback) (ev : QuicklimeEvent) (st : state).
Implicit Types (l : list (option callback)).

Lemma split_at_slot l i e :
  l !! i = Some e →
  l = take i l ++ e :: drop (S i) l ∧ length (take i l) = i.
Proof.
  intros Hi. split; [by rewrite take_drop_middle|].
  apply lookup_lt_Some in Hi. rewrite length_take. lia.
Qed.

Lemma NoDup_slot l i c :
  NoDup (omap id l) → l !! i = Some (Some c) →
  (Some c ∉ take i l) ∧ (Some c ∉ drop (S i) l).
Proof.
  intros Hnd Hi. destruct (split_at_slot l i _ Hi) as [Hl _].
  rewrite Hl, omap_app in Hnd. csimpl in Hnd.
  apply NoDup_app in Hnd as (_ & Hd & Hnd2).
  apply NoDup_cons in Hnd2 as [Hnin _]. rewrite <-!live_elem. split; [|done].
  intros Hin. apply (Hd _ Hin). apply elem_of_cons. by left.
Qed.

Lemma sweep_entry ev c :
  inert c ev = true →
  sweep ev [Some c]
  = [match c, thrown_by c ev with
     | OnceWrapper _ _, None => None
     | _, _ => Some c
     end].
Proof.
  destruct c as [f|n inner|p]; simpl; [|done..].
  by destruct (thrown (body f ev)).
Qed.

Lemma inert_step_callbacks c ev i st :
  NoDup (registry st) → callbacks st !! i = Some (Some c) →
  inert c ev = true →
  callbacks (async_call c ev (log (Scheduled i c ev) st))
  = take i (callbacks st) ++ sweep ev [Some c] ++ drop (S i) (callbacks st).
Proof.
  intros Hnd Hi Hin. set (s0 := log (Scheduled i c ev) st).
  destruct (async_call_frame c ev s0) as (_ & _ & -> & _).
  destruct (call_inert c ev s0 Hin) as (-> & _).
  rewrite (sweep_entry _ _ Hin). simpl.
  destruct (NoDup_slot _ _ _ Hnd Hi) as [Hpre Hpost].
  destruct (split_at_slot _ _ _ Hi) as [Hl _].
  destruct c as [f|n inner|p]; cbn [thrown_by] in *;
    [by destruct (thrown (body f ev))| |done].
  destruct (thrown_by inner ev); [done|].
  rewrite Hl at 1. unfold set_delete. rewrite fmap_app, fmap_cons.
  fold (set_delete (OnceWrapper n inner) (take i (callbacks st))).
  fold (set_delete (OnceWrapper n inner) (drop (S i) (callbacks st))).
  rewrite !set_delete_absent by done. by rewrite decide_True.
Qed.

Lemma take_drop_at l1 l2 l3 i :
  length l1 = i → length l2 = 1 →
  take (S i) (l1 ++ l2 ++ l3) = l1 ++ l2 ∧ drop (S i) (l1 ++ l2 ++ l3) = l3.
Proof.
  intros Hl1 Hl2. rewrite app_assoc.
  assert (length (l1 ++ l2) = S i) as <- by (rewrite length_app; lia).
  by rewrite take_app_length, drop_app_length.
Qed.

Lemma sweep_length ev l : length (sweep ev l) = length l.
Proof. unfold sweep. by rewrite length_fmap. Qed.

(** From position [i] on, with inert handles only: the loop returns,
    having issued one call per live entry, in order; nothing stops the
    propagation and only the [once] wrappers that returned leave the set. *)

Lemma loop_inert fuel ev i st :
  NoDup (registry st) →
  Forall (λ c, inert c ev = true) (omap id (drop i (callbacks st))) →
  stopped (stopPropagation ev) st = false →
  length (callbacks st) - i < fuel →
  ∃ st', dispatch_loop fuel ev i st = Returned st' ∧
    callbacks st' = take i (callbacks st) ++ sweep ev (drop i (callbacks st)) ∧
    propagationStopped st' = propagationStopped st ∧
    closures st' = closures st ∧
    scheduled (observed st st') = slots i (drop i (callbacks st)) ∧
    suspended st'
    = suspended st ++ omap (λ c, parked c ev) (omap id (drop i (callbacks st))).
Proof.
  revert i st. induction fuel as [|fuel IH]; intros i st Hnd Hin Hst Hfuel;
    [lia|]. simpl.
  destruct (callbacks st !! i) as [[c|]|] eqn:Hi.
  - (* a live entry *)
    set (s0 := log (Scheduled i c ev) st). set (s1 := async_call c ev s0).
    destruct (split_at_slot _ _ _ Hi) as [Hl Hlen].
    rewrite (drop_S _ _ _ Hi) in Hin |- *. csimpl in Hin.
    apply Forall_cons in Hin as [Hc Hin].
    pose proof (inert_step_callbacks c ev i st Hnd Hi Hc) as Hcb.
    fold s0 s1 in Hcb.
    destruct (async_call_frame c ev s0)
      as (_ & _ & _ & Hp & Hcl & _ & Hsu & Ht & _). fold s1 in Hp, Hcl, Hsu, Ht.
    destruct (call_inert c ev s0 Hc) as (_ & Hp' & Hcl' & Hsu').
    destruct (call_trace c ev s0) as (more & Htr & Hs & _).
    destruct (take_drop_at (take i (callbacks st)) (sweep ev [Some c])
      (drop (S i) (callbacks st)) i Hlen eq_refl) as [Htk Hdr].
    rewrite <-Hcb in Htk, Hdr.
    assert (stopped (stopPropagation ev) s1 = false) as Hst1.
    { unfold stopped in *. by rewrite Hp, Hp'. }
    rewrite Hst1.
    destruct (IH (S i) s1) as (st' & Hloop & Hcb' & Hp1 & Hcl1 & Hsc & Hsu1).
    + by apply async_call_NoDup.
    + by rewrite Hdr.
    + done.
    + rewrite Hcb, !length_app, sweep_length, length_drop, Hlen. simpl.
      apply lookup_lt_Some in Hi. lia.
    + exists st'. split; [done|]. split_and!.
      * rewrite Hcb', Htk, Hdr. rewrite <-app_assoc. done.
      * by rewrite Hp1, Hp, Hp'.
      * by rewrite Hcl1, Hcl, Hcl'.
      * destruct (loop_observations fuel ev (S i) s1) as (obs & Htr' & _).
        rewrite Hloop in Htr'. simpl in Htr'.
        rewrite (observed_app _ _ _ Htr') in Hsc.
        assert (trace st' = trace st ++
          Scheduled i c ev :: Called c ev (this_last st) :: more ++ obs) as Hall.
        { rewrite Htr', Ht, Htr. simpl. by rewrite <-!app_assoc. }
        rewrite (observed_app _ _ _ Hall).
        unfold scheduled at 1. csimpl. fold (scheduled (more ++ obs)).
        by rewrite scheduled_app, Hs, Hsc, Hdr.
      * rewrite Hsu1, Hsu, Hsu', Hdr. simpl. rewrite <-app_assoc. csimpl.
        by destruct (parked c ev).
  - (* an emptied entry *)
    pose proof (lookup_lt_Some _ _ _ Hi) as Hlt.
    rewrite (drop_S _ _ _ Hi) in Hin |- *. csimpl in Hin.
    destruct (IH (S i) st) as (st' & Hloop & Hcb' & Hp1 & Hcl1 & Hsc & Hsu1);
      [done|done|done|lia|].
    exists st'. split; [done|]. split_and!; [|done..].
    rewrite Hcb', (take_S_r _ _ _ Hi), <-app_assoc. done.
  - (* past the end *)
    apply lookup_ge_None in Hi. exists st.
    rewrite drop_ge, take_ge by lia. simpl. rewrite !app_nil_r.
    split_and!; try done. unfold observed. by rewrite drop_all.
Qed.

End Inert.

(** ** The flag of one activation *)

Section Flag.

Implicit Types (b k : cmd) (c : callback) (ev : QuicklimeEvent) (st : state).

Lemma exec_no_stop ev b st :
  calls_stop b = false →
  propagationStopped (exec ev b st).1 = propagationStopped st.
Proof.
  revert st. induction b; intros st Hb; simpl in Hb |- *; try done;
    by rewrite IHb.
Qed.

Lemma call_no_stop c ev st :
  stops_sync c ev = false →
  propagationStopped (call c ev st).1 = propagationStopped st.
Proof.
  revert st. induction c as [f|n inner IH|p]; intros st Hs; simpl in Hs |- *.
  - by rewrite exec_no_stop.
  - specialize (IH (log (Called (OnceWrapper n inner) ev (this_last st)) st) Hs).
    destruct (call inner ev _) as [st1 [|e]]; simpl in *; done.
  - unfold resolve. simpl. by destruct (promises st !! p) as [[|]|].
Qed.

(** A handle that does not stop the propagation before control returns
    to the loop lets the iteration go on with the next position. *)

Lemma loop_step fuel ev i st c :
  callbacks st !! i = Some (Some c) →
  stops_sync c ev = false →
  stopped (stopPropagation ev) st = false →
  dispatch_loop (S fuel) ev i st
  = dispatch_loop fuel ev (S i) (async_call c ev (log (Scheduled i c ev) st)).
Proof.
  intros Hi Hs Hst. simpl. rewrite Hi.
  destruct (async_call_frame c ev (log (Scheduled i c ev) st))
    as (_ & _ & _ & Hp & _).
  unfold stopped in *. rewrite Hp, call_no_stop by done. simpl.
  by rewrite Hst.
Qed.








End Flag.

(** ** Promises of [next] and bodies entered *)

Section Promises.

Implicit Types (b k : cmd) (c : callback) (ev : QuicklimeEvent) (st : state).

Lemma settles_refl ev l : settles ev l l.
Proof. intros q. by left. Qed.

Lemma settles_trans ev l1 l2 l3 :
  settles ev l1 l2 → settles ev l2 l3 → settles ev l1 l3.
Proof.
  intros H12 H23 q. destruct (H12 q) as [H1|[H1 H1']], (H23 q) as [H2|[H2 H2']].
  - left. congruence.
  - right. split; congruence.
  - right. split; congruence.
  - congruence.
Qed.

Lemma settles_settled ev l l' q :
  settles ev l l' → l !! q ≠ Some None → l' !! q ≠ Some None.
Proof. intros Hs Hq. destruct (Hs q) as [->|[? ?]]; done. Qed.

Lemma resolve_settles p ev st :
  settles ev (promises st) (promises (resolve p ev st)) ∧
  (p < length (promises st) → promises (resolve p ev st) !! p ≠ Some None).
Proof.
  unfold resolve. destruct (promises st !! p) as [[v|]|] eqn:Hp; simpl.
  - split; [apply settles_refl|]. by rewrite Hp.
  - pose proof (lookup_lt_Some _ _ _ Hp) as Hlt. split.
    + intros q. destruct (decide (q = p)) as [->|Hne].
      * right. by rewrite list_lookup_insert_eq.
      * left. by rewrite list_lookup_insert_ne.
    + intros _. by rewrite list_lookup_insert_eq.
  - split; [apply settles_refl|].
    intros Hlt. apply lookup_ge_None in Hp. lia.
Qed.

Lemma call_settles c ev st :
  settles ev (promises st) (promises (call c ev st).1) ∧
  length (promises (call c ev st).1) = length (promises st) ∧
  (∀ p, c = NextListener p → p < length (promises st) →
        promises (call c ev st).1 !! p ≠ Some None).
Proof.
  revert st. induction c as [f|n inner IH|p]; intros st; simpl.
  - destruct (exec_frame ev (body f ev)
      (log (Called (User f) ev (this_last st)) st)) as (_ & _ & -> & _).
    simpl. split_and!; [apply settles_refl|done|done].
  - destruct (IH (log (Called (OnceWrapper n inner) ev (this_last st)) st))
      as (Hs & Hl & _).
    destruct (call inner ev _) as [st1 [|e]]; simpl in *; done.
  - destruct (resolve_settles p ev
      (log (Called (NextListener p) ev (this_last st)) st)) as [Hs Hp].
    split_and!; [done| |by intros ? [= <-]].
    unfold resolve. simpl. destruct (promises st !! p) as [[|]|]; simpl;
      by rewrite ?length_insert.
Qed.

Lemma loop_settles fuel ev i st :
  let st' := final (dispatch_loop fuel ev i st) in
  settles ev (promises st) (promises st') ∧
  length (promises st') = length (promises st) ∧
  (∀ j p, (j, NextListener p) ∈ scheduled (observed st st') →
          p < length (promises st) → promises st' !! p ≠ Some None).
Proof.
  simpl. revert i st. induction fuel as [|fuel IH]; intros i st; simpl.
  { split_and!; [apply settles_refl|done|]. intros j p.
    unfold observed. rewrite drop_all. by intros ?%elem_of_nil. }
  destruct (callbacks st !! i) as [[c|]|] eqn:Hi; [|by apply IH|].
  2:{ split_and!; [apply settles_refl|done|]. intros j p.
      unfold observed. rewrite drop_all. by intros ?%elem_of_nil. }
  set (s0 := log (Scheduled i c ev) st).
  destruct (call_settles c ev s0) as (Hs & Hl & Hp).
  destruct (call_trace c ev s0) as (more & Htr & Hsc & _).
  destruct (async_call_frame c ev s0)
    as (_ & _ & _ & _ & _ & Hpr & _ & Ht & _).
  rewrite <-Hpr in Hs, Hl, Hp.
  assert (trace (async_call c ev s0)
          = trace st ++ Scheduled i c ev :: Called c ev (this_last st) :: more)
    as Ht1.
  { rewrite Ht, Htr. simpl. by rewrite <-app_assoc. }
  destruct (stopped _ _); simpl.
  - split_and!; [done..|]. intros j p. rewrite (observed_app _ _ _ Ht1).
    unfold scheduled. csimpl. fold (scheduled more). rewrite Hsc.
    intros [= _ Hc]%list_elem_of_singleton. by apply Hp.
  - destruct (IH (S i) (async_call c ev s0)) as (Hs' & Hl' & Hp').
    split_and!; [by eapply settles_trans|by rewrite Hl'|].
    destruct (loop_observations fuel ev (S i) (async_call c ev s0))
      as (obs & Htr' & _).
    intros j p. rewrite (observed_app _ _ _ Htr') in Hp'.
    rewrite Ht1, <-app_assoc in Htr'. rewrite (observed_app _ _ _ Htr').
    unfold scheduled. csimpl. fold (scheduled (more ++ obs)).
    rewrite scheduled_app, Hsc. simpl.
    intros [[= _ Hc]|Hin]%elem_of_cons Hlt.
    + eapply settles_settled; [exact Hs'|]. by apply Hp.
    + eapply Hp'; [done|]. simpl in Hl. by rewrite Hl.
Qed.

Lemma called_app tr1 tr2 : called (tr1 ++ tr2) = called tr1 ++ called tr2.
Proof. apply omap_app. Qed.

(** The call issued for a [once] wrapper enters the wrapped callback. *)

Lemma loop_called fuel ev i st j c :
  let st' := final (dispatch_loop fuel ev i st) in
  (j, c) ∈ scheduled (observed st st') →
  c ∈ called (observed st st') ∧
  ∀ n inner, c = OnceWrapper n inner → inner ∈ called (observed st st').
Proof.
  simpl. revert i st. induction fuel as [|fuel IH]; intros i st; simpl.
  { unfold observed. rewrite drop_all. by intros ?%elem_of_nil. }
  destruct (callbacks st !! i) as [[c0|]|] eqn:Hi; [|by apply IH|].
  2:{ unfold observed. rewrite drop_all. by intros ?%elem_of_nil. }
  set (s0 := log (Scheduled i c0 ev) st).
  destruct (call_trace c0 ev s0) as (more & Htr & Hsc & _ & Hw).
  destruct (async_call_frame c0 ev s0)
    as (_ & _ & _ & _ & _ & _ & _ & Ht & _).
  assert (trace (async_call c0 ev s0)
          = trace st ++ Scheduled i c0 ev :: Called c0 ev (this_last st) :: more)
    as Ht1.
  { rewrite Ht, Htr. simpl. by rewrite <-app_assoc. }
  destruct (stopped _ _); simpl.
  - rewrite (observed_app _ _ _ Ht1).
    unfold scheduled, called. csimpl. fold (scheduled more) (called more).
    rewrite Hsc. intros [= -> ->]%list_elem_of_singleton. split.
    + apply elem_of_cons. by left.
    + intros n inner Hc. apply elem_of_cons. right. by eapply Hw.
  - specialize (IH (S i) (async_call c0 ev s0)).
    destruct (loop_observations fuel ev (S i) (async_call c0 ev s0))
      as (obs & Htr' & _).
    rewrite (observed_app _ _ _ Htr') in IH.
    rewrite Ht1, <-app_assoc in Htr'. rewrite (observed_app _ _ _ Htr').
    unfold scheduled, called. csimpl.
    fold (scheduled (more ++ obs)) (called (more ++ obs)).
    rewrite scheduled_app, called_app, Hsc. simpl.
    intros [[= -> ->]|Hin]%elem_of_cons.
    + split; [apply elem_of_cons; by left|].
      intros n inner Hc. apply elem_of_cons. right.
      apply elem_of_app. left. by eapply Hw.
    + destruct (IH Hin) as [Hc Hinner]. split.
      * apply elem_of_cons. right. apply elem_of_app. by right.
      * intros n inner Heq. apply elem_of_cons. right.
        apply elem_of_app. right. by eapply Hinner.
Qed.

End Promises.

(** ** Whole dispatches *)

Section Whole.

Implicit Types (c h : callback) (ev : QuicklimeEvent) (st : state).
Implicit Types (l : list (option callback)).

Lemma omap_slots {B} (g : callback → option B) i l :
  omap (λ jc, g jc.2) (slots i l) = omap g (omap id l).
Proof.
  revert i. induction l as [|[c|] l IH]; intros i; csimpl; [done| |done].
  rewrite IH. done.
Qed.

Lemma slots_elem c i l : c ∈ omap id l → ∃ j, (j, c) ∈ slots i l.
Proof.
  rewrite <-(live_slots i l). intros ([j c'] & -> & Hin)%list_elem_of_fmap.
  by exists j.
Qed.

Lemma sweep_elem ev c l :
  Some c ∈ sweep ev l ↔
  Some c ∈ l ∧ match c with
               | OnceWrapper _ inner => thrown_by inner ev ≠ None
               | _ => True
               end.
Proof.
  unfold sweep. rewrite list_elem_of_fmap. split.
  - intros ([[f|n inner|p]|] & Heq & Hin); try done.
    + by injection Heq as ->.
    + destruct (thrown_by inner ev) eqn:Ht; [|done].
      injection Heq as ->. by rewrite Ht.
    + by injection Heq as ->.
  - intros [Hin Hc]. exists (Some c). split; [|done].
    destruct c as [f|n inner|p]; [done| |done].
    by destruct (thrown_by inner ev).
Qed.

Lemma sweep_sub ev c l : c ∈ omap id (sweep ev l) → c ∈ omap id l.
Proof. rewrite !live_elem, sweep_elem. tauto. Qed.

Lemma dispatch_frame fuel x st :
  this_last (final (dispatch fuel x st)) = Some x ∧
  dispatches (final (dispatch fuel x st)) = S (dispatches st).
Proof.
  unfold dispatch.
  by destruct (loop_frame fuel (dispatch_event x st) 0
    (fresh_dispatch (set_last (Some x) st))) as [-> ->].
Qed.

(** A dispatch to inert handles. *)

Lemma dispatch_inert fuel x st :
  let ev := dispatch_event x st in
  NoDup (registry st) →
  Forall (λ c, inert c ev = true) (registry st) →
  length (callbacks st) < fuel →
  ∃ st', dispatch fuel x st = Returned st' ∧
    callbacks st' = sweep ev (callbacks st) ∧
    scheduled (observed st st') = slots 0 (callbacks st) ∧
    stopped (dispatches st) st' = false ∧
    suspended st' = suspended st ++ omap (λ c, parked c ev) (registry st).
Proof.
  simpl. intros Hnd Hin Hfuel. unfold dispatch.
  set (s0 := fresh_dispatch (set_last (Some x) st)).
  assert (stopped (stopPropagation (dispatch_event x st)) s0 = false) as Hst.
  { unfold stopped. simpl. apply bool_decide_eq_false_2.
    rewrite elem_of_difference, elem_of_singleton. tauto. }
  destruct (loop_inert fuel (dispatch_event x st) 0 s0)
    as (st' & Hloop & Hcb & Hp & _ & Hsc & Hsu); [done|done|done|simpl; lia|].
  exists st'. rewrite drop_0 in *. split_and!; [done..| |done].
  unfold stopped in *. by rewrite Hp.
Qed.

(** C4, as the code has it.  A throw never ends the iteration: when
    the handle at position [i] throws [e] without having stopped the
    propagation, the loop goes on with position [i + 1], from the state
    the handle left and with the promise of that one call rejected with
    [e], exactly as it would go on after a normal return.  Every call the
    loop issues enters the body of its handle.  Whether the other handles
    are invoked is decided by the handles, not by the throw: when none of
    the registered handles stops the propagation or edits the registry
    before its first suspension, any number of them may throw, and
    [dispatch] returns to its caller, having entered the body of every
    registered handle, the ones before a throwing handle as well as the
    ones after it, in registration order; the promises rejected without
    handler during the dispatch carry the values thrown, one per throwing
    handle. *)

Theorem throw_does_not_stop_dispatch :
  (∀ fuel ev i st c e,
     callbacks st !! i = Some (Some c) → thrown_by c ev = Some e →
     stops_sync c ev = false → stopped (stopPropagation ev) st = false →
     dispatch_loop (S fuel) ev i st
     = dispatch_loop fuel ev (S i)
         (report e (call c ev (log (Scheduled i c ev) st)).1)) ∧
  (∀ fuel x st j c,
     let st' := final (dispatch fuel x st) in
     (j, c) ∈ scheduled (observed st st') → c ∈ called (observed st st')) ∧
  (∀ fuel x st,
     NoDup (registry st) →
     Forall (λ c, inert c (dispatch_event x st) = true) (registry st) →
     length (callbacks st) < fuel →
     ∃ st', dispatch fuel x st = Returned st' ∧
       (scheduled (observed st st')).*2 = registry st ∧
       (∀ c, c ∈ registry st → c ∈ called (observed st st')) ∧
       reported st st'
       = omap (λ c, thrown_by c (dispatch_event x st)) (registry st)).
Proof.
  split_and!.
  - intros fuel ev i st c e Hi He Hs Hst.
    rewrite (loop_step _ _ _ _ _ Hi Hs Hst), async_call_eq, He. done.
  - intros fuel x st j c. simpl. intros Hin.
    exact (proj1 (loop_called fuel (dispatch_event x st) 0
      (fresh_dispatch (set_last (Some x) st)) j c Hin)).
  - intros fuel x st Hnd Hin Hfuel.
    destruct (dispatch_inert fuel x st Hnd Hin Hfuel)
      as (st' & Hd & _ & Hsc & _).
    exists st'. split; [done|].
    destruct (dispatch_observations fuel x st) as (_ & Hu & _).
    rewrite Hd in Hu. simpl in Hu.
    rewrite Hu, Hsc, live_slots. split_and!; [done| |].
    + intros c Hc. destruct (slots_elem _ 0 _ Hc) as [j Hj].
      rewrite <-Hsc in Hj.
      pose proof (loop_called fuel (dispatch_event x st) 0
        (fresh_dispatch (set_last (Some x) st)) j c) as Hcl.
      simpl in Hcl. fold (dispatch fuel x st) in Hcl. rewrite Hd in Hcl.
      exact (proj1 (Hcl Hj)).
    + apply (omap_slots (λ c, thrown_by c (dispatch_event x st))).
Qed.

(** C6.  A handle that has not called [event.stopPropagation()] when
    control returns to the loop, because it suspended first, lets the
    iteration go on with the next position; its continuation, with the
    call in it, waits.  When the registered handles are inert, the loop
    issues the call of every one of them, in order, and when [dispatch]
    returns the flag of the activation is still down and the continuations
    are still suspended.  Resuming such a continuation later calls the
    capability, which raises the flag of that ended activation and does
    nothing else: the registry and the observations are as they were, and
    every later [dispatch], which has a flag of its own, runs as it would
    have run without the call. *)


(** C10.  [on(h)] is idempotent: registering [h] twice is registering it
    once, and when [h] is already registered the dispatcher is left as it
    was, so that the registry keeps its contents and their order; a new
    handle goes to the end of the registry, after all the handles
    registered before it.  In every dispatcher that a client can build from
    [new Quicklime(init)] by calls of [on], [once], [off], [clear],
    [next] and [dispatch] (with the jobs resumed in between), the registry
    has no duplicates.  The loop of [dispatch] issues its calls in
    increasing order of position in the set, so that handles are visited
    in the order of their insertion. *)

Theorem on_idempotent c st acts init fuel x :
  on c (on c st) = on c st ∧
  (if bool_decide (c ∈ registry st) then on c st = st
   else registry (on c st) = registry st ++ [c]) ∧
  NoDup (registry (run acts (new init))) ∧
  StronglySorted (λ a b, a.1 < b.1)
    (scheduled (observed st (final (dispatch fuel x st)))).
Proof.
  split_and!.
  - apply on_present, on_registered.
  - case_bool_decide as Hin; [by apply on_present|].
    unfold registry. simpl. rewrite live_add.
    by rewrite bool_decide_eq_false_2.
  - apply run_NoDup. apply NoDup_nil_2.
  - apply (loop_sorted fuel (dispatch_event x st) 0
      (fresh_dispatch (set_last (Some x) st))).
Qed.

End Whole.

(** ** [once] *)

Section Once.

Implicit Types (c h : callback) (ev : QuicklimeEvent) (st : state).

(** C2, as the code has it.  The wrapper made by [once(h)] calls [h] and
    does not wait for it: when the synchronous part of [h] has not thrown,
    control is back in the wrapper, which removes itself from the registry
    there and then.  The body of [h] has been entered before the removal,
    and whatever [h] left suspended is still suspended, not run, when the
    wrapper is gone. *)

Theorem once_removes_without_awaiting n h ev st :
  thrown_by h ev = None →
  let st_h :=
    (call h ev (log (Called (OnceWrapper n h) ev (this_last st)) st)).1 in
  let st' := (call (OnceWrapper n h) ev st).1 in
  call (OnceWrapper n h) ev st = (off (OnceWrapper n h) st_h, Normal) ∧
  (OnceWrapper n h ∉ registry st') ∧
  h ∈ called (observed st st') ∧
  suspended st' = suspended st_h ∧
  (plain h ev = true →
   suspended st' = suspended st ++ option_list (parked h ev)).
Proof.
  intros Hn. cbv zeta. rewrite (wrapper_call_normal _ _ _ _ Hn).
  cbn [fst snd].
  split_and!; [done|apply off_unregistered| |done|].
  - destruct (call_trace (OnceWrapper n h) ev st) as (more & Htr & _ & _ & Hw).
    rewrite (wrapper_call_normal _ _ _ _ Hn) in Htr. cbn [fst] in Htr.
    unfold observed.
    rewrite Htr, drop_app_length.
    unfold called. csimpl. apply elem_of_cons. right. by eapply Hw.
  - intros Hp.
    destruct (call_plain h ev
      (log (Called (OnceWrapper n h) ev (this_last st)) st) Hp)
      as (_ & _ & _ & Hs).
    exact Hs.
Qed.

(** C7, as the code has it.  When [h] throws synchronously in a call of
    the wrapper made by [once(h)], the throw leaves the wrapper before
    its [off]: the registry is as [h] itself left it, so the wrapper is
    still registered unless [h] removed it.  Every later dispatch whose
    loop issues the call of the wrapper enters [h] again.  When the
    registered handles are inert on two successive dispatches, so that
    nothing stops the propagation or removes the wrapper, and [h] throws
    on the first, the wrapper is still registered after the first, [h]
    is entered again by the second, and the wrapper stays after the
    second exactly when [h] throws again. *)

Theorem once_kept_when_callback_throws :
  (∀ n h ev st e,
     thrown_by h ev = Some e →
     call (OnceWrapper n h) ev st
     = ((call h ev (log (Called (OnceWrapper n h) ev (this_last st)) st)).1,
        Abrupt e) ∧
     (plain h ev = true →
      callbacks (async_call (OnceWrapper n h) ev st) = callbacks st)) ∧
  (∀ fuel x st j n h,
     let st' := final (dispatch fuel x st) in
     (j, OnceWrapper n h) ∈ scheduled (observed st st') →
     h ∈ called (observed st st')) ∧
  (∀ fuel x1 x2 st n h e,
     let ev1 := dispatch_event x1 st in
     let ev2 := {| data := x2; event_last := Some x1;
                   stopPropagation := S (dispatches st) |} in
     NoDup (registry st) →
     Forall (λ c, inert c ev1 = true ∧ inert c ev2 = true) (registry st) →
     length (callbacks st) < fuel →
     OnceWrapper n h ∈ registry st →
     thrown_by h ev1 = Some e →
     ∃ st1 st2,
       dispatch fuel x1 st = Returned st1 ∧
       OnceWrapper n h ∈ registry st1 ∧
       dispatch fuel x2 st1 = Returned st2 ∧
       h ∈ called (observed st1 st2) ∧
       (OnceWrapper n h ∈ registry st2 ↔ thrown_by h ev2 ≠ None)).
Proof.
  split_and!.
  - intros n h ev st e He. split; [by apply wrapper_call_abrupt|].
    intros Hp. destruct (async_call_frame (OnceWrapper n h) ev st)
      as (_ & _ & -> & _).
    rewrite (wrapper_call_abrupt _ _ _ _ _ He). simpl.
    by destruct (call_plain h ev
      (log (Called (OnceWrapper n h) ev (this_last st)) st) Hp) as (-> & _).
  - intros fuel x st j n h. simpl. intros Hin.
    by eapply (loop_called fuel (dispatch_event x st) 0
      (fresh_dispatch (set_last (Some x) st))).
  - intros fuel x1 x2 st n h e. simpl. intros Hnd Hin Hfuel Hw He.
    destruct (dispatch_inert fuel x1 st Hnd) as (st1 & Hd1 & Hcb1 & _);
      [by eapply Forall_impl; [exact Hin|]; intros ? []|done|].
    destruct (dispatch_frame fuel x1 st) as [Hl1 Hn1].
    rewrite Hd1 in Hl1, Hn1. simpl in Hl1, Hn1.
    assert (OnceWrapper n h ∈ registry st1) as Hw1.
    { apply live_elem. rewrite Hcb1. apply sweep_elem.
      split; [by apply live_elem|]. by rewrite He. }
    assert (NoDup (registry st1)) as Hnd1.
    { pose proof (loop_NoDup fuel (dispatch_event x1 st) 0
        (fresh_dispatch (set_last (Some x1) st)) Hnd) as H.
      fold (dispatch fuel x1 st) in H. by rewrite Hd1 in H. }
    assert (dispatch_event x2 st1
            = {| data := x2; event_last := Some x1;
                 stopPropagation := S (dispatches st) |}) as Hev.
    { unfold dispatch_event. by rewrite Hl1, Hn1. }
    destruct (dispatch_inert fuel x2 st1 Hnd1) as (st2 & Hd2 & Hcb2 & Hsc & _).
    { rewrite Hev. apply Forall_forall. intros c Hc.
      rewrite Forall_forall in Hin. apply Hin.
      unfold registry in Hc. rewrite Hcb1 in Hc. by apply sweep_sub in Hc. }
    { by rewrite Hcb1, sweep_length. }
    exists st1, st2. split_and!; [done..| |].
    + destruct (slots_elem _ 0 _ Hw1) as [j Hj]. rewrite <-Hsc in Hj.
      pose proof (loop_called fuel (dispatch_event x2 st1) 0
        (fresh_dispatch (set_last (Some x2) st1)) j (OnceWrapper n h)) as Hc.
      simpl in Hc. fold (dispatch fuel x2 st1) in Hc. rewrite Hd2 in Hc.
      by eapply (proj2 (Hc Hj)).
    + unfold registry at 1. rewrite live_elem, Hcb2, sweep_elem, Hev.
      apply live_elem in Hw1. tauto.
Qed.

End Once.

(** ** [next] *)

Section Next.

Implicit Types (c h : callback) (ev : QuicklimeEvent) (st : state).


(** A promise of [next] leaves the pending state in a dispatch exactly
    when the body of its listener is entered in that dispatch. *)


(** C9, as the code has it.  [next()] makes a promise, pending, and
    registers a listener for it.  The following [dispatch(x)] fulfils the
    promise exactly when it enters the body of that listener: then the
    value is the event [{data: x, last: previous}], where [previous] is
    the dispatcher's [last] from before that dispatch, and otherwise the
    promise is still pending after the dispatch.  The listener is entered
    whenever the loop issues its call (the propagation was not stopped
    and the listener was not removed before its position was reached);
    this is so, in particular, when the handles registered before are
    inert, and then [dispatch] returns. *)


End Next.

(** * Further properties of the methods *)

(** ** [off], and [off] with [on] *)

Section Off.

Implicit Types (c h : callback) (st : state) (l : list callback).

Lemma filter_absent c l : c ∉ l → filter (λ c', c' ≠ c) l = l.
Proof.
  induction l as [|c' l IH]; [done|].
  rewrite not_elem_of_cons. intros [Hne Hnin].
  rewrite filter_cons_True by done. by rewrite IH.
Qed.

Lemma registry_off c st :
  registry (off c st) = filter (λ c', c' ≠ c) (registry st).
Proof. apply live_delete. Qed.

Lemma off_absent c st : c ∉ registry st → off c st = st.
Proof.
  intros Hnin. unfold off. rewrite set_delete_absent; [apply state_eta|].
  by rewrite <-live_elem.
Qed.

(** X1.  [off(h)] takes [h] out of the registry and keeps the other handles
    in their order; it leaves a dispatcher in which [h] is not registered
    exactly as it was; done twice it is done once. *)

Theorem off_removes_only_that_handle c st :
  registry (off c st) = filter (λ c', c' ≠ c) (registry st) ∧
  off c (off c st) = off c st ∧
  (c ∉ registry st → off c st = st).
Proof.
  split_and!; [apply registry_off| |apply off_absent].
  apply off_absent, off_unregistered.
Qed.

(** X2.  [off(h)] then [on(h)] moves [h] to the end of the iteration order,
    behind the handles that were registered after it; [on(h)] then
    [off(h)] of a handle that was not registered gives back the registry
    as it was. *)

Theorem off_then_on_moves_to_end c st :
  registry (on c (off c st)) = filter (λ c', c' ≠ c) (registry st) ++ [c] ∧
  (c ∉ registry st → registry (off c (on c st)) = registry st).
Proof.
  split.
  - unfold registry at 1. cbn [on callbacks set_callbacks].
    rewrite live_add. fold (registry (off c st)).
    rewrite bool_decide_eq_false_2 by apply off_unregistered.
    by rewrite registry_off.
  - intros Hnin. rewrite registry_off. unfold registry at 1.
    cbn [on callbacks set_callbacks]. rewrite live_add.
    fold (registry st). rewrite bool_decide_eq_false_2 by done.
    rewrite filter_app, filter_absent by done.
    rewrite filter_cons_False, filter_nil, app_nil_r; [done|]. by intros [].
Qed.

(** X3.  Chained calls of [on] with handles that are new and distinct
    register them in the order of the calls. *)

Theorem on_chain_registers_in_order l st :
  NoDup l → (∀ c, c ∈ l → c ∉ registry st) →
  registry (foldl (λ s c, on c s) st l) = registry st ++ l.
Proof.
  revert st. induction l as [|c l IH]; intros st Hnd Hnew; simpl.
  { by rewrite app_nil_r. }
  apply NoDup_cons in Hnd as [Hc Hnd].
  assert (registry (on c st) = registry st ++ [c]) as Hon.
  { unfold registry. simpl. rewrite live_add.
    rewrite bool_decide_eq_false_2; [done|].
    apply Hnew, elem_of_cons. by left. }
  rewrite IH; [by rewrite Hon, <-app_assoc|done|].
  intros c' Hc'. rewrite Hon, not_elem_of_app, list_elem_of_singleton.
  split; [apply Hnew, elem_of_cons; by right|]. by intros ->.
Qed.

End Off.

(** ** [once] and the wrappers it makes *)

Section Wrappers.

Implicit Types (c h : callback) (ev : QuicklimeEvent) (st : state).

Lemma wrapper_differs n h : OnceWrapper n h ≠ h.
Proof.
  revert n. induction h as [f|m h IH|p]; intros n; [done| |done].
  intros [= -> Heq]. by eapply IH.
Qed.

Lemma registry_once_fresh h st :
  OnceWrapper (closures st) h ∉ registry st →
  registry (once h st) = registry st ++ [OnceWrapper (closures st) h].
Proof.
  intros Hnew. unfold registry, once. simpl. rewrite live_add.
  by rewrite bool_decide_eq_false_2.
Qed.

(** X4.  Every call of [once(h)] makes a wrapper of its own: two calls
    register two handles, behind the ones already there, even though two
    calls of [on(h)] register one.  (The closures not yet made are not
    registered: that is the hypothesis.) *)

Theorem once_twice_registers_two h st :
  (∀ m, closures st ≤ m → OnceWrapper m h ∉ registry st) →
  registry (once h (once h st))
  = registry st ++ [OnceWrapper (closures st) h;
                    OnceWrapper (S (closures st)) h] ∧
  registry (on h (on h st)) = registry (on h st).
Proof.
  intros Hnew. split; [|by rewrite (on_present _ _ (on_registered h st))].
  assert (registry (once h st)
          = registry st ++ [OnceWrapper (closures st) h]) as H1.
  { apply registry_once_fresh, Hnew. done. }
  rewrite registry_once_fresh.
  - rewrite H1, <-app_assoc. done.
  - rewrite H1. change (closures (once h st)) with (S (closures st)).
    rewrite not_elem_of_app, list_elem_of_singleton. split.
    + apply Hnew. lia.
    + intros [= ?]. lia.
Qed.

End Wrappers.

(** ** When [dispatch] returns *)

Section Termination.

Implicit Types (b k : cmd) (c h : callback) (ev : QuicklimeEvent) (st : state).


Lemma exec_length ev b st :
  registering b = false →
  length (callbacks (exec ev b st).1) = length (callbacks st).
Proof.
  revert st. induction b; intros st Hb; simpl in Hb |- *; try done.
  - by rewrite IHb.
  - rewrite IHb by done. simpl. apply length_set_delete.
  - rewrite IHb by done. simpl. unfold set_clear. apply length_fmap.
Qed.

Lemma call_length c ev st :
  (∀ f, registering (body f ev) = false) →
  length (callbacks (call c ev st).1) = length (callbacks st).
Proof.
  intros Hb. revert st. induction c as [f|n inner IH|p]; intros st; simpl.
  - by rewrite exec_length.
  - specialize (IH (log (Called (OnceWrapper n inner) ev (this_last st)) st)).
    destruct (call inner ev _) as [st1 [|e]]; simpl in *; [|done].
    by rewrite length_set_delete.
  - unfold resolve. simpl. by destruct (promises st !! p) as [[|]|].
Qed.

Lemma loop_returns fuel ev i st :
  (∀ f, registering (body f ev) = false) →
  length (callbacks st) - i < fuel →
  ∃ st', dispatch_loop fuel ev i st = Returned st' ∧
         length (callbacks st') = length (callbacks st).
Proof.
  intros Hb. revert i st. induction fuel as [|fuel IH]; intros i st Hfuel;
    [lia|]. simpl.
  destruct (callbacks st !! i) as [[c|]|] eqn:Hi.
  - pose proof (lookup_lt_Some _ _ _ Hi) as Hlt.
    set (s1 := async_call c ev (log (Scheduled i c ev) st)).
    assert (length (callbacks s1) = length (callbacks st)) as Hlen.
    { unfold s1.
      destruct (async_call_frame c ev (log (Scheduled i c ev) st))
        as (_ & _ & -> & _).
      by rewrite call_length. }
    destruct (stopped _ _); [by exists s1|].
    destruct (IH (S i) s1) as (st' & Hloop & Hlen'); [lia|].
    exists st'. split; [done|]. congruence.
  - pose proof (lookup_lt_Some _ _ _ Hi) as Hlt. apply IH. lia.
  - by exists st.
Qed.

(** X9.  When no user function registers a handle before control returns
    to the loop, the set does not grow during the dispatch and [dispatch]
    returns after at most one step per entry, whatever else the handles
    do: throw, suspend, stop the propagation, remove handles, clear. *)

Theorem dispatch_returns_when_nothing_registers fuel x st :
  (∀ f, registering (body f (dispatch_event x st)) = false) →
  length (callbacks st) < fuel →
  ∃ st', dispatch fuel x st = Returned st' ∧
         length (callbacks st') = length (callbacks st).
Proof.
  intros Hb Hfuel. unfold dispatch.
  apply (loop_returns fuel (dispatch_event x st) 0
    (fresh_dispatch (set_last (Some x) st)) Hb). simpl. lia.
Qed.


(** X7.  [dispatch] on a dispatcher without registered handles (a new
    one, one whose handles were all removed, one that was cleared) calls
    nothing and reports nothing: it returns the dispatcher with [last]
    set, and that is all.  [clear()] leaves such a dispatcher. *)



(** X8.  A user function that calls [clear()] and registers nothing
    afterwards ends the dispatch for everybody else: when the loop is at
    its position, it returns right after that call, with an empty
    registry; no handle at a later position is called in this
    dispatch. *)


Lemma loop_reregistering fuel ev i st f :
  body f ev = Off (User f) (On (User f) Return) →
  omap id (drop i (callbacks st)) = [User f] →
  stopped (stopPropagation ev) st = false →
  ∃ st', dispatch_loop fuel ev i st = OutOfFuel st'.
Proof.
  intros Hb. revert i st. induction fuel as [|fuel IH]; intros i st Hl Hst.
  { by eexists. }
  simpl. destruct (callbacks st !! i) as [[c|]|] eqn:Hi.
  - rewrite (drop_S _ _ _ Hi) in Hl. csimpl in Hl.
    injection Hl as -> Hrest.
    pose proof (lookup_lt_Some _ _ _ Hi) as Hlt.
    set (s0 := log (Scheduled i (User f) ev) st).
    assert (async_call (User f) ev s0
            = on (User f) (off (User f)
                (log (Called (User f) ev (this_last st)) s0))) as Hcall.
    { unfold async_call. simpl. by rewrite Hb. }
    rewrite Hcall.
    change (stopped (stopPropagation ev) (on _ (off _ (log _ s0))))
      with (stopped (stopPropagation ev) st).
    rewrite Hst. apply IH; [|done].
    cbn [on off log callbacks set_callbacks s0].
    unfold set_add, set_has. rewrite bool_decide_eq_false_2.
    2:{ rewrite set_delete_elem. tauto. }
    rewrite drop_app_le by (rewrite length_set_delete; lia).
    rewrite omap_app. unfold set_delete at 1. rewrite <-fmap_drop.
    fold (set_delete (User f) (drop (S i) (callbacks st))).
    rewrite live_delete, Hrest. done.
  - rewrite (drop_S _ _ _ Hi) in Hl. csimpl in Hl. by apply IH.
  - apply lookup_ge_None in Hi. by rewrite drop_ge in Hl.
Qed.

(** X10.  A user function that removes itself and registers itself again
    is appended behind the iterator and therefore visited again: when it
    is the only handle left to visit, the loop never ends, whatever the
    fuel. *)

Theorem reregistering_handle_never_returns fuel x st f :
  body f (dispatch_event x st) = Off (User f) (On (User f) Return) →
  registry st = [User f] →
  ∃ st', dispatch fuel x st = OutOfFuel st'.
Proof.
  intros Hb Hreg. unfold dispatch.
  apply (loop_reregistering fuel (dispatch_event x st) 0 _ f Hb).
  - by rewrite drop_0.
  - unfold stopped. simpl. apply bool_decide_eq_false_2.
    rewrite elem_of_difference, elem_of_singleton. tauto.
Qed.

End Termination.

(** ** Which bodies a dispatch enters *)

Section Entered.

Implicit Types (c h : callback) (ev : QuicklimeEvent) (st : state).

Lemma call_called_sub c ev st :
  ∃ more, trace (call c ev st).1 = trace st ++ more ∧
    scheduled more = [] ∧
    ∀ c', c' ∈ called more → c' = c ∨ wrapped_in c' c = true.
Proof.
  revert st. induction c as [f|n inner IH|p]; intros st; simpl.
  - exists [Called (User f) ev (this_last st)].
    destruct (exec_frame ev (body f ev)
      (log (Called (User f) ev (this_last st)) st)) as (_ & _ & _ & _ & ->).
    split_and!; [done..|]. intros c' ?%list_elem_of_singleton. by left.
  - destruct (IH (log (Called (OnceWrapper n inner) ev (this_last st)) st))
      as (more & Htr & Hs & Hsub).
    exists (Called (OnceWrapper n inner) ev (this_last st) :: more).
    assert (∀ c', c' ∈ called
              (Called (OnceWrapper n inner) ev (this_last st) :: more) →
            c' = OnceWrapper n inner
            ∨ bool_decide (c' = inner) || wrapped_in c' inner = true) as Hc.
    { intros c'. unfold called. csimpl. fold (called more).
      intros [->|Hin]%elem_of_cons; [by left|]. right.
      destruct (Hsub c' Hin) as [->|Hw].
      - by rewrite bool_decide_eq_true_2.
      - rewrite Hw. apply orb_true_r. }
    destruct (call inner ev _) as [st1 [|e]]; simpl in *;
      rewrite Htr, <-app_assoc; done.
  - exists [Called (NextListener p) ev (this_last st)].
    unfold resolve. simpl.
    destruct (promises st !! p) as [[|]|]; simpl;
      (split_and!; [done..|]); intros c' ?%list_elem_of_singleton; by left.
Qed.

(** A body entered during a dispatch is the body of a handle whose call
    the loop issued, or of a callback wrapped in such a handle. *)

Lemma loop_called_sub fuel ev i st c' :
  let st' := final (dispatch_loop fuel ev i st) in
  c' ∈ called (observed st st') →
  ∃ j c, (j, c) ∈ scheduled (observed st st')
         ∧ (c' = c ∨ wrapped_in c' c = true).
Proof.
  simpl. revert i st. induction fuel as [|fuel IH]; intros i st; simpl.
  { unfold observed. rewrite drop_all. by intros ?%elem_of_nil. }
  destruct (callbacks st !! i) as [[c|]|] eqn:Hi; [|by apply IH|].
  2:{ unfold observed. rewrite drop_all. by intros ?%elem_of_nil. }
  set (s0 := log (Scheduled i c ev) st).
  destruct (call_called_sub c ev s0) as (more & Htr & Hs & Hsub).
  destruct (async_call_frame c ev s0)
    as (_ & _ & _ & _ & _ & _ & _ & Ht & _).
  assert (trace (async_call c ev s0) = trace st ++ Scheduled i c ev :: more)
    as Ht1.
  { rewrite Ht, Htr. simpl. by rewrite <-app_assoc. }
  destruct (stopped _ _); simpl.
  - rewrite (observed_app _ _ _ Ht1).
    unfold scheduled, called. csimpl. fold (scheduled more) (called more).
    rewrite Hs. intros Hin. exists i, c. split; [|by apply Hsub].
    by apply list_elem_of_singleton.
  - specialize (IH (S i) (async_call c ev s0)).
    destruct (loop_observations fuel ev (S i) (async_call c ev s0))
      as (obs & Htr' & _).
    rewrite (observed_app _ _ _ Htr') in IH.
    rewrite Ht1, <-app_assoc in Htr'. rewrite (observed_app _ _ _ Htr').
    unfold scheduled, called. csimpl.
    fold (scheduled (more ++ obs)) (called (more ++ obs)).
    rewrite scheduled_app, called_app, Hs. simpl.
    intros [Hin|Hin]%elem_of_app.
    + exists i, c. split; [|by apply Hsub]. apply elem_of_cons. by left.
    + destruct (IH Hin) as (j & c0 & Hj & Hc0). exists j, c0.
      split; [|done]. apply elem_of_cons. by right.
Qed.

Lemma inert_wrapped_in c h ev :
  inert c ev = true → wrapped_in h c = true → ∃ n, c = OnceWrapper n h.
Proof.
  destruct c as [f|n inner|p]; simpl; [done| |done].
  intros Hp Hw. destruct inner as [f|m inner|p]; try done; simpl in Hw;
    rewrite orb_false_r in Hw; apply bool_decide_eq_true in Hw; subst;
    by exists n.
Qed.

(** X6.  [once(h)] with inert handles registered: when [h] does not throw
    in the first dispatch, that dispatch enters [h] and the wrapper leaves
    the registry; the second dispatch does not issue the call of the
    wrapper, and, unless [h] is also registered directly or through another
    [once], it does not enter [h] at all. *)

Theorem once_runs_callback_once fuel x1 x2 st n h :
  let ev1 := dispatch_event x1 st in
  let ev2 := {| data := x2; event_last := Some x1;
                stopPropagation := S (dispatches st) |} in
  NoDup (registry st) →
  Forall (λ c, inert c ev1 = true ∧ inert c ev2 = true) (registry st) →
  length (callbacks st) < fuel →
  OnceWrapper n h ∈ registry st →
  thrown_by h ev1 = None →
  ∃ st1 st2,
    dispatch fuel x1 st = Returned st1 ∧
    h ∈ called (observed st st1) ∧
    (OnceWrapper n h ∉ registry st1) ∧
    dispatch fuel x2 st1 = Returned st2 ∧
    (∀ j, (j, OnceWrapper n h) ∉ scheduled (observed st1 st2)) ∧
    (h ∉ registry st → (∀ m, m ≠ n → OnceWrapper m h ∉ registry st) →
     h ∉ called (observed st1 st2)).
Proof.
  simpl. intros Hnd Hin Hfuel Hw Hn.
  destruct (dispatch_inert fuel x1 st Hnd) as (st1 & Hd1 & Hcb1 & Hsc1 & _);
    [by eapply Forall_impl; [exact Hin|]; intros ? []|done|].
  destruct (dispatch_frame fuel x1 st) as [Hl1 Hn1].
  rewrite Hd1 in Hl1, Hn1. simpl in Hl1, Hn1.
  assert (OnceWrapper n h ∉ registry st1) as Hw1.
  { unfold registry. rewrite live_elem, Hcb1, sweep_elem, Hn. tauto. }
  assert (∀ c, c ∈ registry st1 → c ∈ registry st) as Hsub.
  { intros c. unfold registry. rewrite Hcb1. apply sweep_sub. }
  assert (NoDup (registry st1)) as Hnd1.
  { pose proof (loop_NoDup fuel (dispatch_event x1 st) 0
      (fresh_dispatch (set_last (Some x1) st)) Hnd) as H.
    fold (dispatch fuel x1 st) in H. by rewrite Hd1 in H. }
  assert (dispatch_event x2 st1
          = {| data := x2; event_last := Some x1;
               stopPropagation := S (dispatches st) |}) as Hev.
  { unfold dispatch_event. by rewrite Hl1, Hn1. }
  destruct (dispatch_inert fuel x2 st1 Hnd1) as (st2 & Hd2 & _ & Hsc2 & _).
  { rewrite Hev. apply Forall_forall. intros c Hc.
    rewrite Forall_forall in Hin. by apply Hin, Hsub. }
  { by rewrite Hcb1, sweep_length. }
  assert (∀ j c, (j, c) ∈ scheduled (observed st1 st2) → c ∈ registry st1)
    as Hreg2.
  { intros j c Hj. rewrite Hsc2 in Hj. unfold registry.
    rewrite <-(live_slots 0). apply list_elem_of_fmap. by exists (j, c). }
  exists st1, st2. split_and!; [done| |done|done| |].
  - destruct (slots_elem _ 0 _ Hw) as [j Hj]. rewrite <-Hsc1 in Hj.
    pose proof (loop_called fuel (dispatch_event x1 st) 0
      (fresh_dispatch (set_last (Some x1) st)) j (OnceWrapper n h)) as Hc.
    simpl in Hc. fold (dispatch fuel x1 st) in Hc. rewrite Hd1 in Hc.
    by eapply (proj2 (Hc Hj)).
  - intros j Hj. by apply Hw1, (Hreg2 j).
  - intros Hh Hother Hcalled.
    pose proof (loop_called_sub fuel (dispatch_event x2 st1) 0
      (fresh_dispatch (set_last (Some x2) st1)) h) as Hc.
    simpl in Hc. fold (dispatch fuel x2 st1) in Hc. rewrite Hd2 in Hc.
    destruct (Hc Hcalled) as (j & c & Hj & [Heq|Hwr]).
    + subst c. by apply Hh, Hsub, (Hreg2 j).
    + pose proof (Hreg2 j c Hj) as Hc1.
      rewrite Forall_forall in Hin.
      destruct (Hin c (Hsub c Hc1)) as [Hi1 _].
      destruct (inert_wrapped_in c h _ Hi1 Hwr) as [m ->].
      destruct (decide (m = n)) as [->|Hne]; [done|].
      by apply (Hother m Hne), Hsub.
Qed.

(** X5.  [off(h)] does not undo [once(h)]: the registered handle is the
    wrapper, a function of its own, and it stays registered.  With inert
    handles, the next dispatch returns and has entered [h]. *)

Theorem off_does_not_undo_once fuel x st h :
  let s := off h (once h st) in
  let ev := dispatch_event x st in
  OnceWrapper (closures st) h ∈ registry s ∧
  (NoDup (registry st) →
   Forall (λ c, inert c ev = true) (registry st) →
   plain h ev = true →
   length (callbacks st) + 1 < fuel →
   ∃ st', dispatch fuel x s = Returned st' ∧ h ∈ called (observed s st')).
Proof.
  simpl. set (w := OnceWrapper (closures st) h).
  assert (w ∈ registry (off h (once h st))) as Hw.
  { rewrite registry_off, list_elem_of_filter.
    split; [apply wrapper_differs|apply on_registered]. }
  split; [done|]. intros Hnd Hin Hp Hfuel.
  set (s := off h (once h st)) in *.
  assert (NoDup (registry s)) as Hnds.
  { apply NoDup_live_delete. by apply NoDup_live_add. }
  destruct (dispatch_inert fuel x s Hnds) as (st' & Hd & _ & Hsc & _).
  - change (dispatch_event x s) with (dispatch_event x st).
    apply Forall_forall. intros c Hc.
    unfold s in Hc. rewrite registry_off, list_elem_of_filter in Hc.
    destruct Hc as [_ Hc]. unfold registry, once in Hc. simpl in Hc.
    rewrite live_add in Hc. rewrite Forall_forall in Hin.
    destruct (bool_decide _); [by apply Hin|].
    apply elem_of_app in Hc as [Hc|Hc]; [by apply Hin|].
    apply list_elem_of_singleton in Hc. by subst c.
  - unfold s. cbn [off callbacks set_callbacks].
    rewrite length_set_delete. cbn [once on callbacks set_callbacks fresh_closure].
    unfold set_add. destruct (set_has _ _); [lia|].
    rewrite length_app. simpl. lia.
  - exists st'. split; [done|].
    destruct (slots_elem _ 0 _ Hw) as [j Hj]. rewrite <-Hsc in Hj.
    pose proof (loop_called fuel (dispatch_event x s) 0
      (fresh_dispatch (set_last (Some x) s)) j w) as Hc.
    simpl in Hc. fold (dispatch fuel x s) in Hc. rewrite Hd in Hc.
    by eapply (proj2 (Hc Hj)).
Qed.

End Entered.

(** ** The promise and the listener of [next] *)

Section Settled.

Implicit Types (c h : callback) (ev v : QuicklimeEvent) (st : state).

Lemma step_settled a st p v :
  promises st !! p = Some (Some v) →
  promises (step st a) !! p = Some (Some v).
Proof.
  intros Hp. destruct a as [c|c|c| | |fuel x|i]; simpl; try done.
  - rewrite lookup_app_l; [done|]. by eapply lookup_lt_Some.
  - destruct (loop_settles fuel (dispatch_event x st) 0
      (fresh_dispatch (set_last (Some x) st))) as (Hs & _).
    fold (dispatch fuel x st) in Hs.
    destruct (Hs p) as [->|[Hq _]]; simpl in *; congruence.
  - unfold resume. destruct (suspended st !! i) as [[ev k]|]; [|done].
    destruct (exec_frame ev k (set_suspended (delete i (suspended st)) st))
      as (_ & _ & Hpr & _).
    destruct (exec ev k _) as [st1 [|e]]; simpl in *; by rewrite Hpr.
Qed.

Lemma run_settled acts st p v :
  promises st !! p = Some (Some v) →
  promises (run acts st) !! p = Some (Some v).
Proof.
  intros Hp. induction acts as [|a acts IH] using rev_ind; [done|].
  rewrite run_snoc. by apply step_settled.
Qed.

(** X12.  A promise of [next] that is fulfilled keeps its value: no call of
    a method, no later dispatch (whose listener calls [resolve] again) and
    no resumed continuation changes it. *)

Theorem settled_promise_keeps_its_value acts st p v :
  promises st !! p = Some (Some v) →
  promises (run acts st) !! p = Some (Some v).
Proof.
  intros Hp. induction acts as [|a acts IH] using rev_ind; [done|].
  rewrite run_snoc.
  destruct a as [c|c|c| | |fuel x|i]; by apply step_settled.
Qed.

(** X13.  The listener registered by [next()] is an ordinary handle and is
    never taken out by the dispatcher: with inert handles, the dispatch
    that fulfils the promise leaves the listener registered, so every
    call of [next()] leaves one more handle to call in all the dispatches
    to come, while the promise stays what the first dispatch made it. *)

Theorem next_listener_stays_registered fuel x st acts :
  let p := (next st).1 in
  let st1 := (next st).2 in
  let ev := {| data := x; event_last := this_last st;
               stopPropagation := dispatches st |} in
  NoDup (registry st) →
  Forall (λ c, inert c ev = true) (registry st) →
  length (callbacks st) + 1 < fuel →
  ∃ st', dispatch fuel x st1 = Returned st' ∧
    NextListener p ∈ registry st' ∧
    promises (run acts st') !! p = Some (Some ev).
Proof.
  simpl. set (p := length (promises st)).
  set (st1 := on (NextListener p) (set_promises (promises st ++ [None]) st)).
  set (ev := {| data := x; event_last := this_last st;
                stopPropagation := dispatches st |}).
  intros Hnd Hin Hfuel.
  assert (NoDup (registry st1)) as Hnd1 by by apply NoDup_live_add.
  assert (NextListener p ∈ registry st1) as Hreg by apply on_registered.
  destruct (dispatch_inert fuel x st1 Hnd1) as (st' & Hd & Hcb & Hsc & _).
  - unfold registry. simpl. rewrite live_add.
    destruct (bool_decide _); [done|]. apply Forall_app. split; [done|].
    by repeat constructor.
  - pose proof (length_set_add (NextListener p) (callbacks st)) as Hle.
    simpl. unfold set_add in *. destruct (set_has _ _); [lia|].
    rewrite length_app. simpl. lia.
  - exists st'. split_and!; [done| |].
    + unfold registry. rewrite live_elem, Hcb, sweep_elem.
      split; [by apply live_elem|done].
    + apply run_settled.
      destruct (loop_settles fuel (dispatch_event x st1) 0
        (fresh_dispatch (set_last (Some x) st1))) as (Hs & _ & Hr).
      fold (dispatch fuel x st1) in Hs, Hr. rewrite Hd in Hs, Hr.
      simpl in Hs, Hr.
      destruct (slots_elem _ 0 _ Hreg) as [j Hj]. rewrite <-Hsc in Hj.
      assert (p < length (promises st ++ [None])) as Hlt.
      { rewrite length_app. simpl. lia. }
      specialize (Hr j p Hj Hlt).
      destruct (Hs p) as [Heq|[_ Heq]]; [|exact Heq].
      rewrite Heq in Hr. by rewrite lookup_app_r, Nat.sub_diag in Hr.
Qed.

End Settled.

(** ** Handles registered during a dispatch *)

Section Added.

Implicit Types (c h : callback) (ev : QuicklimeEvent) (st : state).


(** X11.  A handle registered by a user function during a dispatch goes to
    the end of the set, where the iterator has not been yet: with inert
    handles behind the registering function, the loop reaches the new
    handle and issues its call in that same dispatch, after all the
    others, and then returns. *)


End Added.

End Quicklime.

(** * Concrete dispatchers

    The statements above at concrete inputs, with numbers for the data
    and for the thrown values, [sample 7 (Nat.eqb 1)] for the user
    functions (the special datum is 1), and dispatchers built with the
    methods of the class. *)

Ltac decided := apply (bool_decide_unpack _); vm_compute; exact I.

(** C3 at a concrete input: three handles, the second one stops the
    propagation synchronously; the third one is never scheduled. *)

Lemma sync_stop_prevents_later_witness :
  let body := sample (T:=nat) 7 (Nat.eqb 1) in
  let st := on (User 6) (on (User 2) (on (User 0) (new (Some 0)))) in
  let st' := final (dispatch body 5 9 st) in
  (1, User 2) ∈ scheduled (observed st st') ∧
  stops_sync body (User 2) (dispatch_event 9 st) = true ∧
  ∀ j c', (j, c') ∈ scheduled (observed st st') → j ≤ 1.
Proof.
  intros body st st'.
  assert ((1, User 2) ∈ scheduled (observed st st')) as H1 by decided.
  split_and!; [exact H1|reflexivity|].
  exact (sync_stop_prevents_later body 5 9 st 1 (User 2) H1 eq_refl).
Defined.

(** C4 as stated fails.  Three handles: the first throws, the second
    stops the propagation, the third does nothing.  [dispatch] returns
    after the second: the third handle is registered and is not invoked
    in this dispatch, in which one registered callback threw. *)

Lemma throw_then_stop_counterexample :
  let body := sample (T:=nat) 7 (Nat.eqb 1) in
  let st := on (User 0) (on (User 2) (on (User 1) (new (Some 0)))) in
  let st' := final (dispatch body 5 9 st) in
  registry st = [User 1; User 2; User 0] ∧
  thrown_by body (User 1) (dispatch_event 9 st) = Some 7 ∧
  dispatch body 5 9 st = Returned st' ∧
  called (observed st st') = [User 1; User 2] ∧
  registry st' = [User 1; User 2; User 0] ∧
  (User 0 ∉ called (observed st st')).
Proof.
  intros body st st'.
  split_and!; [vm_compute; reflexivity..|decided].
Qed.

(** The amended C4 at a concrete input: the second of three handles
    throws. *)

Lemma throw_does_not_stop_dispatch_witness :
  let body := sample (T:=nat) 7 (Nat.eqb 1) in
  let st := on (User 6) (on (User 1) (on (User 0) (new (Some 0)))) in
  let ev := dispatch_event 9 st in
  let s0 := fresh_dispatch (set_last (Some 9) st) in
  let st1 := final (dispatch body 5 9 st) in
  (callbacks s0 !! 1 = Some (Some (User 1)) ∧
   thrown_by body (User 1) ev = Some 7 ∧
   stops_sync body (User 1) ev = false ∧
   stopped (stopPropagation ev) s0 = false ∧
   dispatch_loop body 3 ev 1 s0
   = dispatch_loop body 2 ev 2
       (report 7 (call body (User 1) ev (log (Scheduled 1 (User 1) ev) s0)).1)) ∧
  ((2, User 6) ∈ scheduled (observed st st1) ∧
   User 6 ∈ called (observed st st1)) ∧
  (NoDup (registry st) ∧
   Forall (λ c, inert body c ev = true) (registry st) ∧
   length (callbacks st) < 5 ∧
   ∃ st', dispatch body 5 9 st = Returned st' ∧
     (scheduled (observed st st')).*2 = [User 0; User 1; User 6] ∧
     (∀ c, c ∈ registry st → c ∈ called (observed st st')) ∧
     reported st st' = [7]).
Proof.
  intros body st ev s0 st1.
  assert (stopped (stopPropagation ev) s0 = false) as H4 by (by vm_compute).
  assert (NoDup (registry st)) as H5 by decided.
  assert (Forall (λ c, inert body c ev = true) (registry st)) as H6
    by (repeat constructor).
  assert (length (callbacks st) < 5) as H7 by (simpl; lia).
  assert ((2, User 6) ∈ scheduled (observed st st1)) as H8 by decided.
  split; [|split].
  - split_and!; [reflexivity..|exact H4|].
    exact (proj1 (throw_does_not_stop_dispatch body) 2 ev 1 s0 (User 1) 7
             eq_refl eq_refl eq_refl H4).
  - split; [exact H8|].
    exact (proj1 (proj2 (throw_does_not_stop_dispatch body))
             5 9 st 2 (User 6) H8).
  - split_and!; [done..|].
    exact (proj2 (proj2 (throw_does_not_stop_dispatch body)) 5 9 st H5 H6 H7).
Defined.

(** C6 at a concrete input: the first handle suspends and calls
    [stopPropagation] when resumed; the second handle is scheduled. *)


(** C8 at a concrete input: the handle at position 0 removes the handle
    registered at position 1, which is then not called. *)


(** C2 as stated fails.  [once(h)] with [h] a function that suspends
    and returns after its suspension: after one [dispatch], which
    returns, the wrapper is out of the registry while the continuation of
    [h] is still suspended.  The wrapper removed itself before [h] ran to
    completion; it did not await [h]. *)

Lemma once_awaits_counterexample :
  let body := sample (T:=nat) 7 (Nat.eqb 1) in
  let st := once (User 6) (new (Some 0)) in
  let ev := {| data := 9; event_last := Some 0; stopPropagation := 0 |} in
  let st' := final (dispatch body 5 9 st) in
  registry st = [OnceWrapper 0 (User 6)] ∧
  dispatch body 5 9 st = Returned st' ∧
  called (observed st st') = [OnceWrapper 0 (User 6); User 6] ∧
  registry st' = [] ∧
  suspended st' = [(ev, Return)].
Proof. intros body st ev st'. split_and!; vm_compute; reflexivity. Qed.

(** The amended C2 at a concrete input. *)

Lemma once_removes_without_awaiting_witness :
  let body := sample (T:=nat) 7 (Nat.eqb 1) in
  let st := once (User 6) (new (Some 0)) in
  let ev := {| data := 9; event_last := Some 0; stopPropagation := 0 |} in
  let st' := (call body (OnceWrapper 0 (User 6)) ev st).1 in
  thrown_by body (User 6) ev = None ∧
  (OnceWrapper 0 (User 6) ∉ registry st') ∧
  User 6 ∈ called (observed st st') ∧
  (plain body (User 6) ev = true →
   suspended st' = suspended st ++ option_list (parked body (User 6) ev)).
Proof.
  intros body st ev st'.
  pose proof (once_removes_without_awaiting body 0 (User 6) ev st eq_refl)
    as (_ & H2 & H3 & _ & H5).
  split_and!; [reflexivity|exact H2|exact H3|exact H5].
Defined.

(** C7 as stated fails.  A handle that stops the propagation on the
    datum 1 only is registered first, then [once(h)] with [h] a function
    that throws.  [dispatch(0)] calls both, [h] throws and the wrapper
    stays registered.  [dispatch(1)] returns after the first handle: [h]
    is not invoked again in that dispatch, although it has not completed
    without throwing and nobody removed the wrapper. *)

Lemma once_retry_counterexample :
  let body := sample (T:=nat) 7 (Nat.eqb 1) in
  let st := once (User 1) (on (User 5) (new (Some 0))) in
  let st1 := final (dispatch body 5 0 st) in
  let st2 := final (dispatch body 5 1 st1) in
  registry st = [User 5; OnceWrapper 0 (User 1)] ∧
  dispatch body 5 0 st = Returned st1 ∧
  called (observed st st1) = [User 5; OnceWrapper 0 (User 1); User 1] ∧
  reported st st1 = [7] ∧
  registry st1 = [User 5; OnceWrapper 0 (User 1)] ∧
  dispatch body 5 1 st1 = Returned st2 ∧
  called (observed st1 st2) = [User 5] ∧
  registry st2 = [User 5; OnceWrapper 0 (User 1)].
Proof. intros body st st1 st2. split_and!; vm_compute; reflexivity. Qed.

(** The amended C7 at a concrete input: [h] throws except on the
    datum 1. *)

Lemma once_kept_when_callback_throws_witness :
  let body := sample (T:=nat) 7 (Nat.eqb 1) in
  let st := once (User 7) (on (User 0) (new (Some 5))) in
  let w := OnceWrapper 0 (User 7) in
  let ev1 := dispatch_event 0 st in
  let ev2 := {| data := 1; event_last := Some 0; stopPropagation := 1 |} in
  let st' := final (dispatch body 5 0 st) in
  (thrown_by body (User 7) ev1 = Some 7 ∧
   call body w ev1 st
   = ((call body (User 7) ev1 (log (Called w ev1 (this_last st)) st)).1,
      Abrupt 7)) ∧
  ((1, w) ∈ scheduled (observed st st') ∧ User 7 ∈ called (observed st st')) ∧
  (NoDup (registry st) ∧
   Forall (λ c, inert body c ev1 = true ∧ inert body c ev2 = true)
     (registry st) ∧
   length (callbacks st) < 5 ∧
   w ∈ registry st ∧
   ∃ st1 st2,
     dispatch body 5 0 st = Returned st1 ∧ w ∈ registry st1 ∧
     dispatch body 5 1 st1 = Returned st2 ∧
     User 7 ∈ called (observed st1 st2) ∧
     (w ∈ registry st2 ↔ thrown_by body (User 7) ev2 ≠ None)).
Proof.
  intros body st w ev1 ev2 st'.
  assert ((1, w) ∈ scheduled (observed st st')) as H1 by decided.
  assert (NoDup (registry st)) as H2 by decided.
  assert (Forall (λ c, inert body c ev1 = true ∧ inert body c ev2 = true)
            (registry st)) as H3 by (repeat constructor).
  assert (length (callbacks st) < 5) as H4 by (simpl; lia).
  assert (w ∈ registry st) as H5 by decided.
  split; [|split].
  - split; [reflexivity|].
    exact (proj1 (proj1 (once_kept_when_callback_throws body)
                    0 (User 7) ev1 st 7 eq_refl)).
  - split; [exact H1|].
    exact (proj1 (proj2 (once_kept_when_callback_throws body))
             5 0 st 1 0 (User 7) H1).
  - split_and!; [done..|].
    exact (proj2 (proj2 (once_kept_when_callback_throws body))
             5 0 1 st 0 (User 7) 7 H2 H3 H4 H5 eq_refl).
Defined.

(** C9 as stated fails.  A handle that stops the propagation is
    registered, then [p = next()] and [dispatch(9)]: the dispatch returns
    after the first handle, the listener of [p] is never called and [p] is
    still pending. *)


(** The amended C9 at concrete inputs: with a handle that returns
    registered before, the listener is called and the promise fulfilled;
    with a handle that stops the propagation registered before, the
    listener is not called and the promise is still pending. *)


(** ** The further properties at concrete inputs *)

Lemma off_removes_only_that_handle_witness :
  let st := on (User 1) (new (T:=nat) (E:=nat) (Some 0)) in
  (User 0 ∉ registry st) ∧ off (User 0) st = st.
Proof.
  intros st. assert (User 0 ∉ registry st) as H by decided.
  split; [exact H|].
  exact (proj2 (proj2 (off_removes_only_that_handle (User 0) st)) H).
Defined.

Lemma off_then_on_moves_to_end_witness :
  let st := on (User 2) (on (User 1) (new (T:=nat) (E:=nat) (Some 0))) in
  registry (on (User 1) (off (User 1) st)) = [User 2; User 1] ∧
  (User 0 ∉ registry st) ∧
  registry (off (User 0) (on (User 0) st)) = registry st.
Proof.
  intros st. assert (User 0 ∉ registry st) as H by decided.
  split_and!; [|exact H|].
  - exact (proj1 (off_then_on_moves_to_end (User 1) st)).
  - exact (proj2 (off_then_on_moves_to_end (User 0) st) H).
Defined.

Lemma on_chain_registers_in_order_witness :
  let st := on (User 0) (new (T:=nat) (E:=nat) (Some 0)) in
  NoDup [User 1; User 2] ∧
  (∀ c, c ∈ [User 1; User 2] → c ∉ registry st) ∧
  registry (on (User 2) (on (User 1) st)) = [User 0; User 1; User 2].
Proof.
  intros st. assert (NoDup [User 1; User 2]) as H1 by decided.
  assert (∀ c, c ∈ [User 1; User 2] → c ∉ registry st) as H2.
  { intros c Hc.
    apply elem_of_cons in Hc as [->|Hc]; [decided|].
    apply list_elem_of_singleton in Hc as ->. decided. }
  split_and!; [exact H1|exact H2|].
  exact (on_chain_registers_in_order [User 1; User 2] st H1 H2).
Defined.

Lemma once_twice_registers_two_witness :
  let st := new (T:=nat) (E:=nat) (Some 0) in
  (∀ m, closures st ≤ m → OnceWrapper m (User 0) ∉ registry st) ∧
  registry (once (User 0) (once (User 0) st))
  = [OnceWrapper 0 (User 0); OnceWrapper 1 (User 0)] ∧
  registry (on (User 0) (on (User 0) st)) = [User 0].
Proof.
  intros st.
  assert (∀ m, closures st ≤ m → OnceWrapper m (User 0) ∉ registry st) as H.
  { intros m _. apply not_elem_of_nil. }
  split; [exact H|]. exact (once_twice_registers_two (User 0) st H).
Defined.

Lemma off_does_not_undo_once_witness :
  let body := sample (T:=nat) 7 (Nat.eqb 1) in
  let st := on (User 0) (new (Some 0)) in
  let s := off (User 6) (once (User 6) st) in
  let ev := dispatch_event 9 st in
  NoDup (registry st) ∧
  Forall (λ c, inert body c ev = true) (registry st) ∧
  plain body (User 6) ev = true ∧
  length (callbacks st) + 1 < 5 ∧
  OnceWrapper 0 (User 6) ∈ registry s ∧
  ∃ st', dispatch body 5 9 s = Returned st' ∧
         User 6 ∈ called (observed s st').
Proof.
  intros body st s ev.
  assert (NoDup (registry st)) as H1 by decided.
  assert (Forall (λ c, inert body c ev = true) (registry st)) as H2
    by (repeat constructor).
  assert (length (callbacks st) + 1 < 5) as H3 by (simpl; lia).
  pose proof (off_does_not_undo_once body 5 9 st (User 6)) as [Ha Hb].
  split_and!; [done|done|reflexivity|done|exact Ha|].
  exact (Hb H1 H2 eq_refl H3).
Defined.

Lemma once_runs_callback_once_witness :
  let body := sample (T:=nat) 7 (Nat.eqb 1) in
  let st := once (User 7) (on (User 0) (new (Some 5))) in
  let w := OnceWrapper 0 (User 7) in
  let ev1 := dispatch_event 1 st in
  let ev2 := {| data := 0; event_last := Some 1; stopPropagation := 1 |} in
  NoDup (registry st) ∧
  Forall (λ c, inert body c ev1 = true ∧ inert body c ev2 = true)
    (registry st) ∧
  length (callbacks st) < 5 ∧
  w ∈ registry st ∧
  thrown_by body (User 7) ev1 = None ∧
  (User 7 ∉ registry st) ∧
  (∀ m, m ≠ 0 → OnceWrapper m (User 7) ∉ registry st) ∧
  ∃ st1 st2,
    dispatch body 5 1 st = Returned st1 ∧
    User 7 ∈ called (observed st st1) ∧
    (w ∉ registry st1) ∧
    dispatch body 5 0 st1 = Returned st2 ∧
    (∀ j, (j, w) ∉ scheduled (observed st1 st2)) ∧
    (User 7 ∉ called (observed st1 st2)).
Proof.
  intros body st w ev1 ev2.
  assert (NoDup (registry st)) as H1 by decided.
  assert (Forall (λ c, inert body c ev1 = true ∧ inert body c ev2 = true)
            (registry st)) as H2 by (repeat constructor).
  assert (length (callbacks st) < 5) as H3 by (simpl; lia).
  assert (w ∈ registry st) as H4 by decided.
  assert (User 7 ∉ registry st) as H5 by decided.
  assert (∀ m, m ≠ 0 → OnceWrapper m (User 7) ∉ registry st) as H6.
  { intros m Hm Hin. apply elem_of_cons in Hin as [Hin|Hin]; [done|].
    apply list_elem_of_singleton in Hin. injection Hin as Hin. done. }
  split_and!; [done|done|done|done|reflexivity|done|done|].
  destruct (once_runs_callback_once body 5 1 0 st 0 (User 7)
              H1 H2 H3 H4 eq_refl)
    as (st1 & st2 & Ha & Hb & Hc & Hd & He & Hf).
  exists st1, st2. split_and!; [done..|]. exact (Hf H5 H6).
Defined.



Lemma dispatch_returns_when_nothing_registers_witness :
  let body := sample (T:=nat) 7 (Nat.eqb 1) in
  let st := on (User 4) (on (User 2) (on (User 1) (new (Some 0)))) in
  (∀ f, registering (body f (dispatch_event 9 st)) = false) ∧
  length (callbacks st) < 4 ∧
  ∃ st', dispatch body 4 9 st = Returned st' ∧
         length (callbacks st') = length (callbacks st).
Proof.
  intros body st.
  assert (∀ f, registering (body f (dispatch_event 9 st)) = false) as H1.
  { intros f. do 9 (destruct f as [|f]; [reflexivity|]). reflexivity. }
  assert (length (callbacks st) < 4) as H2 by (simpl; lia).
  split_and!; [exact H1|exact H2|].
  exact (dispatch_returns_when_nothing_registers body 4 9 st H1 H2).
Defined.

Lemma reregistering_handle_never_returns_witness :
  let body := sample_edits (T:=nat) (E:=nat) in
  let st := on (User 1) (new (Some 0)) in
  body 1 (dispatch_event 9 st) = Off (User 1) (On (User 1) Return) ∧
  registry st = [User 1] ∧
  ∃ st', dispatch body 40 9 st = OutOfFuel st'.
Proof.
  intros body st. split_and!; [reflexivity|reflexivity|].
  exact (reregistering_handle_never_returns body 40 9 st 1 eq_refl eq_refl).
Defined.


Lemma settled_promise_keeps_its_value_witness :
  let body := sample (T:=nat) 7 (Nat.eqb 1) in
  let st := final (dispatch body 5 9 (next (new (Some 3))).2) in
  let ev := {| data := 9; event_last := Some 3; stopPropagation := 0 |} in
  let acts := [DoDispatch 5 4; DoNext; DoClear; DoDispatch 5 6] in
  promises st !! 0 = Some (Some ev) ∧
  promises (run body acts st) !! 0 = Some (Some ev).
Proof.
  intros body st ev acts.
  assert (promises st !! 0 = Some (Some ev)) as H by (vm_compute; reflexivity).
  split; [exact H|].
  exact (settled_promise_keeps_its_value body acts st 0 ev H).
Defined.

Lemma next_listener_stays_registered_witness :
  let body := sample (T:=nat) 7 (Nat.eqb 1) in
  let st := on (User 0) (new (Some 3)) in
  let ev := {| data := 9; event_last := Some 3; stopPropagation := 0 |} in
  NoDup (registry st) ∧
  Forall (λ c, inert body c ev = true) (registry st) ∧
  length (callbacks st) + 1 < 5 ∧
  ∃ st', dispatch body 5 9 (next st).2 = Returned st' ∧
    NextListener (next st).1 ∈ registry st' ∧
    promises (run body [DoDispatch 5 4] st') !! (next st).1 = Some (Some ev).
Proof.
  intros body st ev.
  assert (NoDup (registry st)) as H1 by decided.
  assert (Forall (λ c, inert body c ev = true) (registry st)) as H2
    by (repeat constructor).
  assert (length (callbacks st) + 1 < 5) as H3 by (simpl; lia).
  split_and!; [done..|].
  exact (next_listener_stays_registered body 5 9 st [DoDispatch 5 4] H1 H2 H3).
Defined.
